(** * Relay decision engine and teleport block scanner

    Shallow embedding of [pkg/relayer/relayer.go] (the [Relayer] type with
    [AddPair], [Collect], the ticker body of [Start], [relay] and
    [calcSpread]) and of the behaviour that the teleport event provider
    tests pin down ([Test_teleportEventProvider_FetchEventsRoutine],
    [Test_teleportEventProvider_PrefetchEventsRoutine], [waitForEvents]).

    Conventions:
    - [*big.Int] is [Z]; [time.Time] and [time.Duration] are [Z] on one
      common scale (saturation of [time.Add] is outside the model);
    - a Go pointer that may be nil is an [option]; calling a method that
      reads its receiver through nil is a run-time panic;
    - [map[string]Pair] is [gmap string Pair]; indexing a missing key yields
      the zero value of [Pair], as in Go;
    - each [Pair] owns the only pointer to its [Prices] (it is allocated by
      [AddPair] and never shared), hence the buffer is stored inside the map
      value and [relay] writes it back under the same key. *)

From Stdlib Require Import ZArith QArith Qabs Lqa List String Lia Bool.
From stdpp Require Import base gmap strings list.

Local Open Scope string_scope.
Local Open Scope list_scope.
Local Open Scope Z_scope.

(** ** Outcomes *)

(** A Go [error]: one that [errors.New] builds in package relayer, or one
    that a remote call handed back (a different value even when the text is
    the same). *)
Inductive error : Type :=
| New (msg : string)
| Remote (msg : string).

(** What a Go call can do: return, return an error, or panic. *)
Inductive result (A : Type) : Type :=
| Ok (a : A)
| Err (e : error)
| Panic (msg : string).
Arguments Ok {A} a.
Arguments Err {A} e.
Arguments Panic {A} msg.

(** Answer of a remote call. *)
Inductive reply (A : Type) : Type :=
| Reply (a : A)
| Failure (msg : string).
Arguments Reply {A} a.
Arguments Failure {A} msg.

Definition nilDereference : string :=
  "invalid memory address or nil pointer dereference".

(** The messages of [relayer.go]. *)
Definition errInvalidPrice : error := New "invalid price".
Definition errNotExpired : error :=
  New "unable to update oracle, price is not expired yet".
Definition errQuorum : error :=
  New "unable to update oracle, there is not enough prices to achieve a quorum".
Definition errSpread : error :=
  New "unable to update oracle, spread is too low".

(** ** The oracle package, as far as [relayer.go] uses it *)

Module oracle.

(** [oracle.Price]: [relayer.go] reads [AssetPair] and [Val]; [Age] is the
    observation time the buffer needs for expiry. *)
Record Price : Type := mkPrice {
  AssetPair : string;
  Val : Z;
  Age : Z
}.

(** [oracle.Median], the handle of the on-chain contract. Only the four
    methods called by [relay] appear ([Age], [Bar], [Price], [Poke]); each
    is given by its answer. The transaction hash returned by [Poke] is
    dropped by [relay]. *)
Record Median : Type := mkMedian {
  MAge : reply Z;
  Bar : reply Z;
  MPrice : reply Z;
  Poke : list Price -> reply unit
}.

End oracle.

(** ** float64 and big.Float values *)

(** The value of a [big.Float] or [float64]: the rational it stands for,
    or an infinity. A zero has no sign here ([-0] and [+0] compare alike),
    and NaN does not occur ([big.Float] panics instead). *)
Inductive float : Type :=
| Fin (q : Q)
| Inf (negative : bool).

Definition Qltb (x y : Q) : bool := negb (Qle_bool y x).

(** [x < s] for a finite [s]. *)
Definition float_ltb (x : float) (s : Q) : bool :=
  match x with
  | Fin q => Qltb q s
  | Inf negative => negative
  end.

(** [math.Abs]. *)
Definition float_abs (x : float) : float :=
  match x with
  | Fin q => Fin (Qabs q)
  | Inf _ => Inf false
  end.

(** [x.BitLen()] of a [big.Int]. *)
Definition bitLen (z : Z) : Z :=
  if z =? 0 then 0 else Z.log2 (Z.abs z) + 1.

(** The binary exponent of the positive rational [n/d]: the [e] with
    [2^e <= n/d < 2^(e+1)]. *)
Definition log2Floor (n d : Z) : Z :=
  let c := Z.log2 n - Z.log2 d in
  if 0 <=? c then (if d * 2 ^ c <=? n then c else c - 1)
  else (if d <=? n * 2 ^ (- c) then c else c - 1).

(** [n/d] in units of [2^k], rounded to the nearest integer, a tie going
    to the even one ([ToNearestEven], the mode of a new [big.Float] and of
    [float64]). *)
Definition roundQuotient (n d k : Z) : Z :=
  let N := if 0 <=? k then n else n * 2 ^ (- k) in
  let D := if 0 <=? k then d * 2 ^ k else d in
  let q := N / D in
  let r := N mod D in
  match 2 * r ?= D with
  | Lt => q
  | Gt => q + 1
  | Eq => if Z.even q then q else q + 1
  end.

(** [m * 2^k]. *)
Definition scale (m k : Z) : Q :=
  if 0 <=? k then inject_Z (m * 2 ^ k) else Qmake m (Z.to_pos (2 ^ (- k))).

(** [|q|] rounded to a multiple of [2^k], where [k] is chosen from the
    binary exponent of [q]. *)
Definition roundAbs (quantum : Z -> Z) (q : Q) : Q :=
  let n := Z.abs (Qnum q) in
  let d := Zpos (Qden q) in
  let k := quantum (log2Floor n d) in
  scale (roundQuotient n d k) k.

Definition roundTo (quantum : Z -> Z) (q : Q) : Q :=
  if Qnum q =? 0 then 0%Q
  else if Qnum q <? 0 then Qopp (roundAbs quantum q)
  else roundAbs quantum q.

(** The rounding of a [big.Float] of precision [prec]: [prec] significant
    bits. (The exponent of a [big.Float] has 32 bits; its overflow is not
    modelled.) *)
Definition roundPrec (prec : Z) (q : Q) : Q :=
  roundTo (fun e => e - (prec - 1)) q.

(** [x.Float64()]: 53 significant bits, fewer below [2^-1022] where the
    spacing stays [2^-1074] (so a value below half of that becomes zero),
    and an infinity from [2^1024] on. *)
Definition Float64 (q : Q) : float :=
  let v := roundTo (fun e => Z.max (e - 52) (-1074)) q in
  if Qle_bool (inject_Z (2 ^ 1024)) (Qabs v) then Inf (Qnum q <? 0)
  else Fin v.

(** [calcSpread]: [(newPrice - oldPrice) / oldPrice * 100] in [big.Float]
    arithmetic, then [Float64]. [SetInt] gives each price a precision of
    its bit length, at least 64, and is exact; [Sub], [Quo] and [Mul] take
    the larger precision of their operands ([big.NewFloat(100)] has 53) and
    round their exact result to it. [Quo] panics with [ErrNaN] on 0/0 and
    gives a signed infinity on x/0, which [Mul] and [Float64] keep. *)
Definition calcSpread (oldPrice newPrice : Z) : result float :=
  let prec := Z.max (Z.max (bitLen oldPrice) 64) (Z.max (bitLen newPrice) 64) in
  let x := roundPrec prec (inject_Z (newPrice - oldPrice)) in
  if oldPrice =? 0 then
    if Qnum x =? 0 then Panic "division of zero by zero or infinity by infinity"
    else Ok (Inf (Qnum x <? 0))
  else
    let x := roundPrec prec (x / inject_Z oldPrice) in
    let x := roundPrec prec (x * inject_Z 100) in
    Ok (Float64 x).

(** ** The price buffer *)

(** Modelled from the spec: the [Prices] type of package relayer
    (constructor [NewPrices], methods [Add], [Len], [ClearExpired], [Get],
    [Clear]) is not among the sources; section 4.1 of the specification
    gives its contract. [Truncate] and [Median], whose selection and
    rounding policies the specification leaves open, are parameters of the
    engine below. *)
Record Prices : Type := mkPrices {
  assetPair : string;
  expiration : Z;
  readings : list oracle.Price
}.

Definition NewPrices (assetPair : string) (expiration : Z) : Prices :=
  mkPrices assetPair expiration [].

Definition with_readings (p : Prices) (l : list oracle.Price) : Prices :=
  mkPrices (assetPair p) (expiration p) l.

(** Modelled from the spec: [Add] fails on a zero value, else appends. *)
Definition Prices_Add (p : Prices) (price : oracle.Price) : Prices * option error :=
  if oracle.Val price =? 0 then (p, Some errInvalidPrice)
  else (with_readings p (readings p ++ [price]), None).

(** Modelled from the spec: [Len] is the current reading count. *)
Definition Prices_Len (p : Prices) : Z := Z.of_nat (length (readings p)).

(** Modelled from the spec: a reading is dropped when its age exceeds the
    price expiration. *)
Definition expired (now expiration : Z) (price : oracle.Price) : bool :=
  expiration <? now - oracle.Age price.

(** Modelled from the spec: [ClearExpired] removes every expired reading. *)
Definition Prices_ClearExpired (now : Z) (p : Prices) : Prices :=
  with_readings p
    (List.filter (fun x => negb (expired now (expiration p) x)) (readings p)).

(** Modelled from the spec: [Get] returns the retained readings. *)
Definition Prices_Get (p : Prices) : list oracle.Price := readings p.

(** Modelled from the spec: [Clear] empties the buffer. *)
Definition Prices_Clear (p : Prices) : Prices := with_readings p [].

(** ** The relayer *)

(** [Pair]; the [float64] threshold [OracleSpread] is a finite value. *)
Record Pair : Type := mkPair {
  AssetPair : string;
  OracleSpread : Q;
  OracleExpiration : Z;
  PriceExpiration : Z;
  Median : option oracle.Median;
  prices : option Prices
}.

(** The zero value of [Pair], what indexing a missing key returns. *)
Definition zeroPair : Pair := mkPair "" 0%Q 0 0 None None.

Record Relayer : Type := mkRelayer {
  interval : Z;
  pairs : gmap string Pair
}.

Definition NewRelayer (interval : Z) : Relayer := mkRelayer interval ∅.

(** [r.pairs[k]] *)
Definition index (m : gmap string Pair) (k : string) : Pair :=
  default zeroPair (m !! k).

Definition with_prices (pair : Pair) (p : Prices) : Pair :=
  mkPair (AssetPair pair) (OracleSpread pair) (OracleExpiration pair)
         (PriceExpiration pair) (Median pair) (Some p).

(** A write through [pair.prices] for the pair stored under [k]. *)
Definition store (r : Relayer) (k : string) (p : Prices) : Relayer :=
  mkRelayer (interval r) (<[k := with_prices (index (pairs r) k) p]> (pairs r)).

Definition AddPair (r : Relayer) (pair : Pair) : Relayer :=
  let pair :=
    with_prices pair (NewPrices (AssetPair pair) (PriceExpiration pair)) in
  mkRelayer (interval r) (<[AssetPair pair := pair]> (pairs r)).

Definition Collect (r : Relayer) (price : oracle.Price) : Relayer * result unit :=
  if oracle.Val price =? 0 then (r, Err errInvalidPrice)
  else
    match prices (index (pairs r) (oracle.AssetPair price)) with
    | None => (r, Panic nilDereference)
    | Some buf =>
      match Prices_Add buf price with
      | (_, Some err) => (r, Err err)
      | (buf', None) => (store r (oracle.AssetPair price) buf', Ok tt)
      end
    end.

(** The remote calls of [relay]. *)
Inductive call : Type :=
| CallAge
| CallBar
| CallPrice
| CallPoke (values : list oracle.Price).

Definition is_poke (c : call) : bool :=
  match c with CallPoke _ => true | _ => false end.

(** The two readings of [time.Now] during one [relay]: inside
    [ClearExpired] and at the expiration gate. *)
Record Clock : Type := mkClock {
  clearTime : Z;
  gateTime : Z
}.

Section Engine.

(** [Prices.Truncate] and [Prices.Median] (not among the sources);
    [Median] has no value on an empty buffer. *)
Variable Prices_Truncate : Z -> Prices -> Prices.
Variable Prices_Median : Prices -> option Z.

(** [relay]: the new engine state, the remote calls made in order, and
    the returned error (or panic). *)
Definition relay (clk : Clock) (r : Relayer) (assetPair : string)
  : Relayer * list call * result unit :=
  let pair := index (pairs r) assetPair in
  match prices pair with
  | None => (r, [], Panic nilDereference)
  | Some buf =>
    let buf := Prices_ClearExpired (clearTime clk) buf in
    let r := store r assetPair buf in
    match Median pair with
    | None => (r, [], Panic nilDereference)
    | Some median =>
      match oracle.MAge median with
      | Failure msg => (r, [CallAge], Err (Remote msg))
      | Reply oracleTime =>
        if gateTime clk <? oracleTime + OracleExpiration pair then
          (r, [CallAge], Err errNotExpired)
        else
          match oracle.Bar median with
          | Failure msg => (r, [CallAge; CallBar], Err (Remote msg))
          | Reply quorum =>
            if Prices_Len buf <? quorum then
              (r, [CallAge; CallBar], Err errQuorum)
            else
              let buf := Prices_Truncate quorum buf in
              let r := store r assetPair buf in
              match Prices_Median buf with
              | None => (r, [CallAge; CallBar], Panic "index out of range")
              | Some medianPrice =>
                match oracle.MPrice median with
                | Failure msg =>
                  (r, [CallAge; CallBar; CallPrice], Err (Remote msg))
                | Reply oldPrice =>
                  match calcSpread oldPrice medianPrice with
                  | Err err => (r, [CallAge; CallBar; CallPrice], Err err)
                  | Panic msg => (r, [CallAge; CallBar; CallPrice], Panic msg)
                  | Ok spread =>
                    if float_ltb spread (OracleSpread pair) then
                      (r, [CallAge; CallBar; CallPrice], Err errSpread)
                    else
                      let values := Prices_Get buf in
                      let sent := oracle.Poke median values in
                      (store r assetPair (Prices_Clear buf),
                       [CallAge; CallBar; CallPrice; CallPoke values],
                       match sent with
                       | Reply _ => Ok tt
                       | Failure msg => Err (Remote msg)
                       end)
                  end
                end
              end
          end
      end
    end
  end.

(** What the ticker goroutine of [Start] does, in order. *)
Inductive event : Type :=
| EvLock
| EvUnlock
| EvCall (assetPair : string) (c : call)
| EvSendErr (err : error)
| EvSendSuccess (assetPair : string).

(** The body of [for assetPair, pair := range r.pairs]. A panic ends the
    goroutine (and the process) where it happens. *)
Fixpoint rangePairs (clk : string -> Clock) (onSuccessChan onErrChan : bool)
         (keys : list string) (r : Relayer) : Relayer * list event * bool :=
  match keys with
  | [] => (r, [], false)
  | assetPair :: keys =>
    match prices (index (pairs r) assetPair) with
    | None => (r, [], true)
    | Some buf =>
      if Prices_Len buf =? 0 then
        rangePairs clk onSuccessChan onErrChan keys r
      else
        let '(r, calls, res) := relay (clk assetPair) r assetPair in
        let evs := map (EvCall assetPair) calls in
        match res with
        | Panic _ => (r, evs, true)
        | Err err =>
          let '(r', rest, crashed) :=
            rangePairs clk onSuccessChan onErrChan keys r in
          (r', evs ++ (if onErrChan then [EvSendErr err] else []) ++ rest,
           crashed)
        | Ok _ =>
          let '(r', rest, crashed) :=
            rangePairs clk onSuccessChan onErrChan keys r in
          (r',
           evs ++ (if onSuccessChan then [EvSendSuccess assetPair] else [])
               ++ rest,
           crashed)
        end
    end
  end.

(** One [case <-ticker.C] of [Start], visiting the keys in the given
    order (Go leaves the order of a map range unspecified). *)
Definition tickOver (clk : string -> Clock) (onSuccessChan onErrChan : bool)
           (keys : list string) (r : Relayer) : Relayer * list event :=
  let '(r, evs, crashed) := rangePairs clk onSuccessChan onErrChan keys r in
  (r, EvLock :: evs ++ (if crashed then [] else [EvUnlock])).

Definition tick (clk : string -> Clock) (onSuccessChan onErrChan : bool)
           (r : Relayer) : Relayer * list event :=
  tickOver clk onSuccessChan onErrChan (map fst (map_to_list (pairs r))) r.

End Engine.

(** ** A reference price buffer policy *)

(** Insertion sort by an integer key. *)
Fixpoint insertBy {A : Type} (key : A -> Z) (x : A) (l : list A) : list A :=
  match l with
  | [] => [x]
  | y :: l' => if key x <? key y then x :: l else y :: insertBy key x l'
  end.

Definition sortBy {A : Type} (key : A -> Z) (l : list A) : list A :=
  fold_right (insertBy key) [] l.

(** Modelled from the spec: [Median] sorts the readings by value and
    returns the middle one, or the mean of the two middle ones; its result
    is a [*big.Int] (it is the second argument of [calcSpread]), so the mean
    is an integer quotient. It must not be called on an empty buffer. *)
Definition specMedian (p : Prices) : option Z :=
  let vs := sortBy id (map oracle.Val (readings p)) in
  let n := length vs in
  match n with
  | O => None
  | _ =>
    if Nat.even n then
      Some ((nth (n / 2 - 1) vs 0 + nth (n / 2) vs 0) / 2)
    else Some (nth (n / 2) vs 0)
  end.

(** Modelled from the spec: [Truncate] keeps [min n Len] readings, those
    closest to the median. *)
Definition specTruncate (n : Z) (p : Prices) : Prices :=
  if Prices_Len p <=? n then p
  else
    match specMedian p with
    | Some m =>
      with_readings p
        (firstn (Z.to_nat n)
                (sortBy (fun x => Z.abs (oracle.Val x - m)) (readings p)))
    | None => p
    end.

(** ** The teleport event provider *)

(** Block numbers and timestamps ([uint64] in the tests) are integers; the
    statements below keep them where no subtraction goes below zero. *)
Module teleportevm.

Definition bytes := list Byte.byte.

(** [types.Log]: the fields the tests set, and the log index, which they
    leave nil. *)
Record Log : Type := mkLog {
  TxIndex : Z;
  LogIndex : option Z;
  Data : bytes;
  TxHash : bytes;
  Address : bytes
}.

(** The emitted message: [msg.Data["hash"]] and [msg.Data["event"]]. *)
Record Event : Type := mkEvent {
  hash : bytes;
  event : bytes
}.

(** The block interval of a [types.FilterLogsQuery]. *)
Record BlockRange : Type := mkRange {
  FromBlock : Z;
  ToBlock : Z
}.

Record Config : Type := mkConfig {
  PrefetchPeriod : Z;
  BlockLimit : Z;
  BlockConfirmations : Z
}.

(** Modelled from the spec: the block-range cursor (section 4.3) is not
    among the sources. From [from] it cuts [limit]-wide ranges up to [to];
    the fuel bounds the number of ranges. *)
Fixpoint splitBlockRanges (fuel : nat) (from to limit : Z) : list BlockRange :=
  match fuel with
  | O => []
  | S fuel =>
    if to <? from then []
    else
      let last := Z.min (from + limit - 1) to in
      mkRange from last :: splitBlockRanges fuel (last + 1) to limit
  end.

(** Modelled from the spec: the ranges for one scan, given the chain head
    and the cursor. With [limit >= 1] every range has at least one block, so
    [safe - lastProcessed] ranges are always enough. *)
Definition blockRanges (head confirmations limit lastProcessed : Z)
  : list BlockRange :=
  let safe := head - confirmations in
  if safe <=? lastProcessed then []
  else
    splitBlockRanges (Z.to_nat (safe - lastProcessed))
                     (lastProcessed + 1) safe limit.

Section Provider.

(** The hash derived from a log (its derivation is not among the sources). *)
Variable contentHash : Log -> bytes.

(** [FilterLogs] of the chain client, as a function of the interval. *)
Variable FilterLogs : BlockRange -> reply (list Log).

(** Decoding: the event carries the log's data and the derived hash, as
    [waitForEvents] asserts. *)
Definition decode (l : Log) : Event := mkEvent (contentHash l) (Data l).

(** Modelled from the spec: the chunks are fetched in order; each success
    emits the decoded logs of the chunk and moves the cursor to its end, a
    failure stops the scan. The test expects one event per returned log
    (six events for three fetches of the same two logs), so nothing is
    filtered. Result: the cursor, the intervals queried, the events emitted
    and the error, if any. *)
Fixpoint scanRanges (lastProcessed : Z) (rs : list BlockRange)
  : Z * list BlockRange * list Event * option error :=
  match rs with
  | [] => (lastProcessed, [], [], None)
  | r :: rs =>
    match FilterLogs r with
    | Failure msg => (lastProcessed, [r], [], Some (Remote msg))
    | Reply logs =>
      let '(last, queried, evs, err) := scanRanges (ToBlock r) rs in
      (last, r :: queried, map decode logs ++ evs, err)
    end
  end.


(** Modelled from the spec: one tick of the live routine. *)
Definition fetchTick (cfg : Config) (head lastProcessed : Z)
  : Z * list BlockRange * list Event * option error :=
  scanRanges lastProcessed
    (blockRanges head (BlockConfirmations cfg) (BlockLimit cfg) lastProcessed).

(** Modelled from the spec: the live routine over the successive answers
    of [BlockNumber]. *)
Fixpoint fetchTicks (cfg : Config) (heads : list Z) (lastProcessed : Z)
  : Z * list BlockRange * list Event :=
  match heads with
  | [] => (lastProcessed, [], [])
  | head :: heads =>
    let '(last, queried, evs, _) := fetchTick cfg head lastProcessed in
    let '(last', queried', evs') := fetchTicks cfg heads last in
    (last', queried ++ queried', evs ++ evs')
  end.

(** Modelled from the spec: the live routine starts its cursor at the safe
    height of the first [BlockNumber] answer. *)
Definition fetchEventsRoutine (cfg : Config) (heads : list Z)
  : Z * list BlockRange * list Event :=
  match heads with
  | [] => (0, [], [])
  | head :: heads => fetchTicks cfg heads (head - BlockConfirmations cfg)
  end.

(** The [limit]-wide chunk that ends at block [to]. *)
Definition chunkEndingAt (limit to : Z) : BlockRange :=
  mkRange (to - limit + 1) to.

(** Modelled from the spec: the backfill routine is not among the sources.
    As the specification says it steps backward in [limit]-sized strides
    from the safe height, sampling a block's timestamp at each stride, until
    the sample is at or before [now - prefetchPeriod]. The order of its
    [FilterLogs] calls is the one
    [Test_teleportEventProvider_PrefetchEventsRoutine] asserts: the chunk
    ending at each sampled block is fetched at that stride, the chunk ending
    at the boundary block included. The fuel bounds the number of strides. *)
Fixpoint prefetchRanges (fuel : nat) (timestamp : Z -> Z)
         (now period limit to : Z) : list BlockRange :=
  match fuel with
  | O => []
  | S fuel =>
    if timestamp to <=? now - period then [chunkEndingAt limit to]
    else
      chunkEndingAt limit to
        :: prefetchRanges fuel timestamp now period limit (to - limit)
  end.

(** The backfill routine: no stride ends below block 0. *)
Definition prefetchEventsRoutine (cfg : Config) (timestamp : Z -> Z)
           (now head : Z) : list BlockRange :=
  let safe := head - BlockConfirmations cfg in
  prefetchRanges (Z.to_nat (safe / BlockLimit cfg) + 1) timestamp now
                 (PrefetchPeriod cfg) (BlockLimit cfg) safe.

End Provider.

(** *** Properties of range lists *)

Definition width (r : BlockRange) : Z := ToBlock r - FromBlock r + 1.

Definition covers (r : BlockRange) (b : Z) : Prop :=
  FromBlock r <= b <= ToBlock r.

(** Ranges in ascending order without overlap. *)
Fixpoint ascending (rs : list BlockRange) : Prop :=
  match rs with
  | [] => True
  | r :: rs' =>
    match rs' with
    | [] => True
    | r' :: _ => ToBlock r < FromBlock r'
    end /\ ascending rs'
  end.

(** Ranges in descending order without overlap. *)
Fixpoint descending (rs : list BlockRange) : Prop :=
  match rs with
  | [] => True
  | r :: rs' =>
    match rs' with
    | [] => True
    | r' :: _ => ToBlock r' < FromBlock r
    end /\ descending rs'
  end.

(** The ranges follow one another from [start] to [stop] without gap. *)
Fixpoint contiguous (start : Z) (rs : list BlockRange) (stop : Z) : Prop :=
  match rs with
  | [] => start = stop + 1
  | r :: rs' =>
    FromBlock r = start /\ FromBlock r <= ToBlock r
    /\ contiguous (ToBlock r + 1) rs' stop
  end.

(** *** The data of the tests *)

Import Byte.

Definition teleportTestAddress : bytes :=
  [x2d; x80; x0d; x93; xb0; x65; xce; x01; x1a; xf8; x3f; x31; x6c; xef;
   x9f; x0d; x00; x5b; x0a; xa4].

Definition teleportTestGUID : bytes :=
  repeat x11 32 ++ repeat x22 32
  ++ repeat x00 12 ++ repeat x33 20
  ++ repeat x00 12 ++ repeat x44 20
  ++ repeat x00 31 ++ [x37]
  ++ repeat x00 31 ++ [x42]
  ++ repeat x00 31 ++ [x4d].

Definition txHash : bytes :=
  [x66; xe8; xab; x5a; x41; xd4; xb1; x09; xc7; xf6; xea; x53; x03; xe3;
   xc2; x92; x77; x1e; x57; xfb; x0b; x93; xa8; x47; x4c; xa6; xf7; x2e;
   x53; xea; xc0; xe8].

(** The hash [waitForEvents] expects in every message. *)
Definition expectedHash : bytes :=
  [x69; x51; x5a; x78; xae; x1a; xd8; xc4; x65; x0b; x57; xeb; x6d; xcd;
   x0c; x86; x6b; x71; xe8; x28; x31; x6d; xab; xbc; x64; xf4; x30; x58;
   x8d; x04; x34; x52].

Definition logs : list Log :=
  [mkLog 1 None teleportTestGUID txHash teleportTestAddress;
   mkLog 2 None teleportTestGUID txHash teleportTestAddress].

(** [Test_teleportEventProvider_FetchEventsRoutine]: limit 10, one
    confirmation; [BlockNumber] answers 100, 119, 125; every [FilterLogs]
    returns [logs]. *)
Definition fetchTestConfig : Config := mkConfig 100 10 1.
Definition fetchTestHeads : list Z := [100; 119; 125].
Definition fetchTestFilterLogs (_ : BlockRange) : reply (list Log) :=
  Reply logs.
Definition fetchTest : Z * list BlockRange * list Event :=
  fetchEventsRoutine (fun _ => expectedHash) fetchTestFilterLogs
                     fetchTestConfig fetchTestHeads.

(** [Test_teleportEventProvider_PrefetchEventsRoutine]: limit 15, one
    confirmation, period 100 s; [BlockNumber] answers 100; blocks 99, 84 and
    69 are stamped [now], [now - 80] and [now - 160]. *)
Definition prefetchTestConfig : Config := mkConfig 100 15 1.
Definition prefetchTestNow : Z := 1700000000.
Definition prefetchTestTimestamp (n : Z) : Z :=
  if n =? 99 then prefetchTestNow
  else if n =? 84 then prefetchTestNow - 80
  else if n =? 69 then prefetchTestNow - 160
  else 0.
Definition prefetchTest : list BlockRange :=
  prefetchEventsRoutine prefetchTestConfig prefetchTestTimestamp
                        prefetchTestNow 100.

End teleportevm.

(** ** Locking discipline of a tick *)

(** Every remote call of the trace happens while the mutex is in state
    [want] ([true]: held); [held] is the state before the trace. *)
Fixpoint callsWhile (want held : bool) (t : list event) : bool :=
  match t with
  | [] => true
  | EvLock :: t => callsWhile want true t
  | EvUnlock :: t => callsWhile want false t
  | EvCall _ _ :: t => Bool.eqb held want && callsWhile want held t
  | _ :: t => callsWhile want held t
  end.

Definition isLocking (e : event) : bool :=
  match e with EvLock | EvUnlock => true | _ => false end.

(** ** A small engine to run the transitions on *)

Definition ETHUSD : string := "ETHUSD".

(** A contract last updated at time 1000 that requires three readings,
    holds [onChain] and answers [sent] to a submission. *)
Definition testMedian (onChain : Z) (sent : reply unit) : oracle.Median :=
  oracle.mkMedian (Reply 1000) (Reply 3) (Reply onChain) (fun _ => sent).

(** ETHUSD with an oracle expiration of 60 and a price expiration of 300. *)
Definition testPair (spread : Q) (median : oracle.Median) : Pair :=
  mkPair ETHUSD spread 60 300 (Some median) None.

(** The engine after [AddPair] and one [Collect] per (value, age). *)
Definition testRelayer (pair : Pair) (feed : list (Z * Z)) : Relayer :=
  fold_left
    (fun r va => fst (Collect r (oracle.mkPrice ETHUSD (fst va) (snd va))))
    feed (AddPair (NewRelayer 1) pair).

(** The [Prices] of ETHUSD holding the given (value, age) readings. *)
Definition testPrices (feed : list (Z * Z)) : Prices :=
  mkPrices ETHUSD 300
           (map (fun va => oracle.mkPrice ETHUSD (fst va) (snd va)) feed).

(** The buffer of ETHUSD. *)
Definition bufferOf (r : Relayer) : list (Z * Z) :=
  match prices (index (pairs r) ETHUSD) with
  | None => []
  | Some buf => map (fun x => (oracle.Val x, oracle.Age x)) (readings buf)
  end.

(** ** What a transition may change *)

(** The configuration of a pair: every field but the buffer. *)
Definition sameSettings (p p' : Pair) : Prop :=
  AssetPair p = AssetPair p'
  /\ OracleSpread p = OracleSpread p'
  /\ OracleExpiration p = OracleExpiration p'
  /\ PriceExpiration p = PriceExpiration p'
  /\ Median p = Median p'.

(** Two engines with the same interval and the same pairs under the same
    keys, up to the contents of the buffers. *)
Definition sameRegistry (r r' : Relayer) : Prop :=
  interval r = interval r'
  /\ forall k : string,
      match pairs r !! k, pairs r' !! k with
      | Some p, Some p' =>
        sameSettings p p' /\ (prices p = None <-> prices p' = None)
      | None, None => True
      | _, _ => False
      end.

(** Every registered pair has a buffer and is stored under its own asset
    pair. *)
Definition wellFormed (r : Relayer) : Prop :=
  forall (k : string) (p : Pair),
    pairs r !! k = Some p -> AssetPair p = k /\ prices p <> None.

Definition isSend (e : event) : bool :=
  match e with EvSendErr _ | EvSendSuccess _ => true | _ => false end.

(** A contract given by its four answers. *)
Definition testContract (age bar price : reply Z) (sent : reply unit)
  : oracle.Median :=
  oracle.mkMedian age bar price (fun _ => sent).

(** The number of readings buffered for a pair, if it has a buffer. *)
Definition bufferLen (r : Relayer) (k : string) : option Z :=
  match prices (index (pairs r) k) with
  | None => None
  | Some buf => Some (Prices_Len buf)
  end.

(** ** Standard library pieces used by the command-line packages *)

From Stdlib Require OrderedTypeEx Sorted Permutation.

(** [sort.SliceStable]: for a [less] that is a strict weak order the result
    is the one sorted permutation that keeps equal elements in their
    original order; it is computed here by insertion from the right, each
    element going before the first one that is not less than it. *)
Fixpoint insertStable {A : Type} (less : A -> A -> bool) (x : A) (l : list A)
  : list A :=
  match l with
  | [] => [x]
  | y :: l' => if less y x then y :: insertStable less x l' else x :: l
  end.

Definition SliceStable {A : Type} (less : A -> A -> bool) (l : list A)
  : list A :=
  fold_right (insertStable less) [] l.

(** ** Package cli: the [pairs] and [origins] listings *)

Module cli.

(** [graph.Pair], with the fields [origins.go] reads. *)
Definition Pair : Type := (string * string)%type.
Definition Base (p : Pair) : string := fst p.
Definition Quote (p : Pair) : string := snd p.

Section Listing.

(** [graph.Pair.String] (not among the sources). *)
Variable Pair_String : Pair -> string.

(** [graph.Aggregator] with its method [Pair]. *)
Variable Aggregator : Type.
Variable AggregatorPair : Aggregator -> Pair.

(** [gofer.PriceModels]: the values a [range] over it yields, in the order
    of that range, and the two lookups [Origins] makes ([graph.Pairs] and
    the method [Origins]; not among the sources). *)
Variable PriceModels : Type.
Variable rangeValues : PriceModels -> list Aggregator.
Variable graph_Pairs : PriceModels -> list string -> error + list Pair.
Variable PriceModels_Origins :
  PriceModels -> list Pair -> error + gmap Pair (list string).

(** What is handed to [itemWriter.Write]: an aggregator, or a map with one
    pair and its origins. *)
Inductive item : Type :=
| ItemGraph (g : Aggregator)
| ItemOrigins (p : Pair) (origins : list string).

(** The [itemWriter]: a state and its [Write], which may fail. *)
Variable Writer : Type.
Variable Write : Writer -> item -> Writer * option error.

(** [sort.Slice] (not stable; with the comparison of [sortMapKeys], which
    is no ordering of the pairs, only its being a rearrangement is known). *)
Variable sort_Slice : (Pair -> Pair -> bool) -> list Pair -> list Pair.

(** The loop [for ... { err = m.Write(x); if err != nil { return err } }]:
    the writer afterwards, the items handed to [Write], the error. *)
Fixpoint writeAll (m : Writer) (items : list item)
  : Writer * list item * option error :=
  match items with
  | [] => (m, [], None)
  | x :: items =>
    match Write m x with
    | (m, Some err) => (m, [x], Some err)
    | (m, None) =>
      let '(m, written, err) := writeAll m items in
      (m, x :: written, err)
    end
  end.

(** The comparison of [Pairs]: by the string form of the pair. *)
Definition lessByString (gi gj : Aggregator) : bool :=
  String.ltb (Pair_String (AggregatorPair gi))
             (Pair_String (AggregatorPair gj)).

Definition Pairs (l : PriceModels) (m : Writer)
  : Writer * list item * option error :=
  let graphs := rangeValues l in
  let graphs := SliceStable lessByString graphs in
  writeAll m (map ItemGraph graphs).

(** The comparison of [sortMapKeys]: the string form of one pair against
    the quote of the other. *)
Definition lessStringQuote (pi pj : Pair) : bool :=
  String.ltb (Pair_String pi) (Quote pj).

Definition sortMapKeys (m : gmap Pair (list string)) : list Pair :=
  sort_Slice lessStringQuote (map fst (map_to_list m)).

Definition Origins (args : list string) (l : PriceModels) (m : Writer)
  : Writer * list item * option error :=
  match graph_Pairs l args with
  | inl err => (m, [], Some err)
  | inr pairs =>
    match PriceModels_Origins l pairs with
    | inl err => (m, [], Some err)
    | inr origins =>
      writeAll m
        (map (fun p => ItemOrigins p (default [] (origins !! p)))
             (sortMapKeys origins))
    end
  end.

End Listing.

Arguments ItemGraph {Aggregator} g.
Arguments ItemOrigins {Aggregator} p origins.
Arguments writeAll {Aggregator Writer} Write m items.
Arguments lessByString Pair_String {Aggregator} AggregatorPair gi gj.
Arguments Pairs Pair_String {Aggregator} AggregatorPair {PriceModels}
          rangeValues {Writer} Write l m.
Arguments Origins Pair_String {Aggregator PriceModels} graph_Pairs
          PriceModels_Origins {Writer} Write sort_Slice args l m.

(** A writer that records what it is given and refuses the items of a
    given list position. *)
Definition logWrite {A : Type} (failAt : nat) (w : list (item A)) (x : item A)
  : list (item A) * option error :=
  if Nat.eqb (length w) failAt then (w ++ [x], Some (Remote "broken pipe"))
  else (w ++ [x], None).

End cli.

(** ** Package marshal: the plain format *)

Module marshal.

Definition newline : string := String (Ascii.ascii_of_nat 10) EmptyString.

Section Plain.

(** [model.Pair] with [String], and the [%f] rendering of a [float64]
    price (not among the sources). *)
Variable PairT : Type.
Variable PairString : PairT -> string.
Variable PriceT : Type.
Variable Sprintf_f : PriceT -> string.

(** The fields of [model.PriceAggregate] and [model.Exchange] that the
    handlers read. *)
Record PriceAggregate : Type := mkPriceAggregate {
  Pair : PairT;
  Price : PriceT
}.

Record Exchange : Type := mkExchange {
  Name : string
}.

(** The dynamic type of the [item interface{}]: a slice of marshalled
    items, one of the three model types (the pointers may be nil, the map
    is given by its keys in range order), or anything else. *)
Inductive item : Type :=
| ItemMarshalled (i : list string)
| ItemPriceAggregate (aggregate : option PriceAggregate)
| ItemExchange (exchange : option Exchange)
| ItemPriceModelMap (priceModelMap : list PairT)
| ItemOther.

(** The handlers append to [ret] and return an error, which is always
    nil; their [err] argument is not used. *)
Definition plainHandlePriceAggregate (ret : list string)
           (aggregate : option PriceAggregate) (err : option error)
  : result (list string * option error) :=
  match aggregate with
  | None => Panic nilDereference
  | Some a =>
    Ok (ret ++ [(PairString (Pair a) ++ " " ++ Sprintf_f (Price a))%string],
       None)
  end.

Definition plainHandleExchange (ret : list string)
           (exchange : option Exchange) (err : option error)
  : result (list string * option error) :=
  match exchange with
  | None => Panic nilDereference
  | Some e => Ok (ret ++ [Name e], None)
  end.

Definition plainHandlePriceModelMap (ret : list string)
           (priceModelMap : list PairT) (err : option error)
  : result (list string * option error) :=
  Ok (fold_left (fun ret pr => ret ++ [PairString pr]) priceModelMap ret, None).

(** The function [newPlain] gives to the buffered marshaller. *)
Definition plainItem (it : item) (ierr : option error)
  : result (list string * option error) :=
  match it with
  | ItemMarshalled i => Ok ([(String.concat newline i ++ newline)%string], None)
  | ItemPriceAggregate a => plainHandlePriceAggregate [] a ierr
  | ItemExchange e => plainHandleExchange [] e ierr
  | ItemPriceModelMap m => plainHandlePriceModelMap [] m ierr
  | ItemOther => Ok ([], Some (New "unsupported data type"))
  end.

End Plain.

Arguments ItemMarshalled {PairT PriceT} i.
Arguments ItemPriceAggregate {PairT PriceT} aggregate.
Arguments ItemExchange {PairT PriceT} exchange.
Arguments ItemPriceModelMap {PairT PriceT} priceModelMap.
Arguments ItemOther {PairT PriceT}.
Arguments plainHandlePriceAggregate {PairT} PairString {PriceT} Sprintf_f
          ret aggregate err.
Arguments plainHandlePriceModelMap {PairT} PairString ret priceModelMap err.
Arguments plainItem {PairT} PairString {PriceT} Sprintf_f it ierr.

End marshal.

(** ** Package spectre: the configuration of the relayer *)

Module spectre.

(** Two's complement [int64]. *)
Definition wrap64 (z : Z) : Z := (z + 2 ^ 63) mod 2 ^ 64 - 2 ^ 63.

(** [time.Second] and [time.Minute], in nanoseconds. *)
Definition Second : Z := 1000000000.
Definition Minute : Z := 60 * Second.

Record Medianizer : Type := mkMedianizer {
  Contract : string;
  OracleSpread : Q;
  OracleExpiration : Z
}.

Record Spectre : Type := mkSpectre {
  Interval : Z;
  Medianizers : gmap string Medianizer
}.

Section Configure.

(** The dependencies, the address type with [ethereum.HexToAddress], and
    the two factories (not among the sources). *)
Variable Signer PriceStore Client Logger Address : Type.
Variable HexToAddress : string -> Address.

Record Dependencies : Type := mkDependencies {
  DSigner : Signer;
  DPriceStore : PriceStore;
  EthereumClient : Client;
  DLogger : Logger
}.

(** [relayer.Pair] as [ConfigureRelayer] fills it; [Median] is the result
    of [medianGeth.NewMedian], given by its two arguments. *)
Record Pair : Type := mkPair {
  AssetPair : string;
  POracleSpread : Q;
  POracleExpiration : Z;
  Median : Client * Address;
  FeederAddressesUpdateTicker : Z
}.

Record Config : Type := mkConfig {
  CSigner : Signer;
  PokeTicker : Z;
  CPriceStore : PriceStore;
  CLogger : Logger;
  Pairs : list Pair
}.

(** The configuration that [ConfigureRelayer] hands to [relayerFactory];
    the medianizers are visited in the order of the map range. *)
Definition ConfigureRelayer (c : Spectre) (d : Dependencies) : Config :=
  mkConfig (DSigner d)
           (wrap64 (Second * Interval c))
           (DPriceStore d)
           (DLogger d)
           (map (fun np : string * Medianizer =>
                   mkPair (fst np)
                          (OracleSpread (snd np))
                          (wrap64 (Second * OracleExpiration (snd np)))
                          (EthereumClient d, HexToAddress (Contract (snd np)))
                          (wrap64 (Minute * 60)))
                (map_to_list (Medianizers c))).

(** The [Pairs] that [ConfigurePriceStore] hands to [priceStoreFactory]:
    [maputil.Keys] of the medianizers. *)
Definition ConfigurePriceStore_Pairs (c : Spectre) : list string :=
  map fst (map_to_list (Medianizers c)).

End Configure.

Arguments DSigner {Signer PriceStore Client Logger} d.
Arguments DPriceStore {Signer PriceStore Client Logger} d.
Arguments EthereumClient {Signer PriceStore Client Logger} d.
Arguments DLogger {Signer PriceStore Client Logger} d.
Arguments AssetPair {Client Address} p.
Arguments POracleSpread {Client Address} p.
Arguments POracleExpiration {Client Address} p.
Arguments Median {Client Address} p.
Arguments FeederAddressesUpdateTicker {Client Address} p.
Arguments Pairs {Signer PriceStore Client Logger Address} c.
Arguments PokeTicker {Signer PriceStore Client Logger Address} c.
Arguments ConfigureRelayer {Signer PriceStore Client Logger Address}
          HexToAddress c d.

End spectre.

(** * Properties of the rounding *)

Lemma bitLen_nonneg (z : Z) : 0 <= bitLen z.
Proof.
  unfold bitLen. destruct (z =? 0); [lia|].
  pose proof (Z.log2_nonneg (Z.abs z)). lia.
Qed.

(** The lower half of the specification of [log2Floor]: [2^e <= n/d]. *)
Lemma log2Floor_lower (n d : Z) :
  0 < n -> 0 < d ->
  (0 <= log2Floor n d -> d * 2 ^ log2Floor n d <= n)
  /\ (log2Floor n d < 0 -> d <= n * 2 ^ (- log2Floor n d)).
Proof.
  intros Hn Hd. unfold log2Floor.
  destruct (Z.log2_spec n Hn) as [Hn1 Hn2].
  destruct (Z.log2_spec d Hd) as [Hd1 Hd2].
  pose proof (Z.log2_nonneg n) as Hln. pose proof (Z.log2_nonneg d) as Hld.
  set (ln := Z.log2 n) in *. set (ld := Z.log2 d) in *.
  destruct (Z.leb_spec 0 (ln - ld)) as [Hc|Hc].
  - destruct (Z.leb_spec (d * 2 ^ (ln - ld)) n) as [Ht|Ht].
    + split; [intros _; exact Ht | lia].
    + split.
      * intros He.
        assert (Hpow : 2 ^ ln = 2 ^ (ld + 1) * 2 ^ (ln - ld - 1))
          by (rewrite <- Z.pow_add_r by lia; f_equal; lia).
        assert (0 < 2 ^ (ln - ld - 1)) by (apply Z.pow_pos_nonneg; lia).
        replace (Z.succ ld) with (ld + 1) in Hd2 by lia.
        nia.
      * intros He. assert (Heq : ln = ld) by lia.
        replace (- (ln - ld - 1)) with 1 by lia.
        replace (Z.succ ld) with (ld + 1) in Hd2 by lia.
        rewrite Z.pow_add_r in Hd2 by lia. rewrite Heq in Hn1.
        change (2 ^ 1) with 2 in *. lia.
  - destruct (Z.leb_spec d (n * 2 ^ (- (ln - ld)))) as [Ht|Ht].
    + split; [lia | intros _; exact Ht].
    + split; [lia|]. intros _.
      assert (Hpow : 2 ^ (ld + 1) = 2 ^ ln * 2 ^ (- (ln - ld - 1)))
        by (rewrite <- Z.pow_add_r by lia; f_equal; lia).
      assert (0 < 2 ^ (- (ln - ld - 1))) by (apply Z.pow_pos_nonneg; lia).
      replace (Z.succ ld) with (ld + 1) in Hd2 by lia.
      nia.
Qed.

Lemma roundQuotient_bounds (n d k : Z) :
  0 <= n -> 0 < d ->
  0 <= roundQuotient n d k
  /\ ((if 0 <=? k then d * 2 ^ k <=? n else d <=? n * 2 ^ (- k)) = true ->
      1 <= roundQuotient n d k).
Proof.
  intros Hn Hd. unfold roundQuotient.
  assert (Hpow : 0 < 2 ^ Z.abs k) by (apply Z.pow_pos_nonneg; lia).
  destruct (Z.leb_spec 0 k) as [Hk|Hk].
  - replace (Z.abs k) with k in Hpow by lia.
    assert (HD : 0 < d * 2 ^ k) by nia.
    pose proof (Z.div_pos n (d * 2 ^ k) Hn HD) as Hq.
    assert (Hone : d * 2 ^ k <= n -> 1 <= n / (d * 2 ^ k))
      by (intros H; apply Z.div_le_lower_bound; lia).
    split.
    + destruct (2 * (n mod (d * 2 ^ k)) ?= d * 2 ^ k);
        [destruct (Z.even _)| |]; lia.
    + intros H%Z.leb_le. specialize (Hone H).
      destruct (2 * (n mod (d * 2 ^ k)) ?= d * 2 ^ k);
        [destruct (Z.even _)| |]; lia.
  - replace (Z.abs k) with (- k) in Hpow by lia.
    assert (HN : 0 <= n * 2 ^ (- k)) by nia.
    pose proof (Z.div_pos (n * 2 ^ (- k)) d HN Hd) as Hq.
    assert (Hone : d <= n * 2 ^ (- k) -> 1 <= n * 2 ^ (- k) / d)
      by (intros H; apply Z.div_le_lower_bound; lia).
    split.
    + destruct (2 * ((n * 2 ^ (- k)) mod d) ?= d);
        [destruct (Z.even _)| |]; lia.
    + intros H%Z.leb_le. specialize (Hone H).
      destruct (2 * ((n * 2 ^ (- k)) mod d) ?= d);
        [destruct (Z.even _)| |]; lia.
Qed.

Lemma Qnum_scale (m k : Z) :
  (0 <= m -> 0 <= Qnum (scale m k)) /\ (0 < m -> 0 < Qnum (scale m k)).
Proof.
  unfold scale. destruct (Z.leb_spec 0 k) as [Hk|Hk]; cbn; [|lia].
  assert (0 < 2 ^ k) by (apply Z.pow_pos_nonneg; lia). split; nia.
Qed.

Lemma roundAbs_nonneg (quantum : Z -> Z) (q : Q) :
  0 <= Qnum (roundAbs quantum q).
Proof.
  unfold roundAbs. apply Qnum_scale.
  apply roundQuotient_bounds; lia.
Qed.

(** Rounding to a precision of at least one bit never gives zero. *)
Lemma roundAbs_prec_pos (prec : Z) (q : Q) :
  1 <= prec -> Qnum q <> 0 ->
  0 < Qnum (roundAbs (fun e => e - (prec - 1)) q).
Proof.
  intros Hprec Hq. unfold roundAbs. apply Qnum_scale.
  assert (Hn : 0 < Z.abs (Qnum q)) by lia.
  assert (Hd : 0 < Z.pos (Qden q)) by lia.
  destruct (log2Floor_lower _ _ Hn Hd) as [Hpos Hneg].
  set (n := Z.abs (Qnum q)) in *. set (d := Z.pos (Qden q)) in *.
  set (e := log2Floor n d) in *.
  cbn beta.
  enough (1 <= roundQuotient n d (e - (prec - 1))) by lia.
  apply (roundQuotient_bounds n d (e - (prec - 1))); [lia|lia|].
  destruct (Z.leb_spec 0 (e - (prec - 1))) as [Hk|Hk]; apply Z.leb_le.
  - assert (He : d * 2 ^ e <= n) by (apply Hpos; lia).
    assert (Hle : 2 ^ (e - (prec - 1)) <= 2 ^ e)
      by (apply Z.pow_le_mono_r; lia).
    assert (0 < 2 ^ (e - (prec - 1))) by (apply Z.pow_pos_nonneg; lia).
    nia.
  - destruct (Z.leb_spec 0 e) as [He|He].
    + assert (H1 : d * 2 ^ e <= n) by (apply Hpos; lia).
      assert (0 < 2 ^ e) by (apply Z.pow_pos_nonneg; lia).
      assert (0 < 2 ^ (- (e - (prec - 1)))) by (apply Z.pow_pos_nonneg; lia).
      nia.
    + assert (H1 : d <= n * 2 ^ (- e)) by (apply Hneg; lia).
      assert (Hle : 2 ^ (- e) <= 2 ^ (- (e - (prec - 1))))
        by (apply Z.pow_le_mono_r; lia).
      nia.
Qed.

(** Rounding keeps the side of zero a value is on. *)
Lemma roundTo_sign (quantum : Z -> Z) (q : Q) :
  (Qnum q <= 0 -> Qnum (roundTo quantum q) <= 0)
  /\ (0 <= Qnum q -> 0 <= Qnum (roundTo quantum q))
  /\ (Qnum q = 0 -> roundTo quantum q = 0%Q).
Proof.
  unfold roundTo. pose proof (roundAbs_nonneg quantum q) as Habs.
  destruct (Z.eqb_spec (Qnum q) 0) as [E|E].
  - repeat split; intros; try reflexivity; cbn; lia.
  - destruct (Z.ltb_spec (Qnum q) 0) as [L|L];
      cbn [Qopp Qnum]; repeat split; intros; lia.
Qed.

Lemma roundPrec_sign (prec : Z) (q : Q) :
  1 <= prec ->
  (Qnum q < 0 <-> Qnum (roundPrec prec q) < 0)
  /\ (Qnum q = 0 <-> Qnum (roundPrec prec q) = 0)
  /\ (0 < Qnum q <-> 0 < Qnum (roundPrec prec q)).
Proof.
  intros Hprec. unfold roundPrec, roundTo.
  destruct (Z.eqb_spec (Qnum q) 0) as [E|E]; [cbn; lia|].
  pose proof (roundAbs_prec_pos prec q Hprec E) as Hpos.
  destruct (Z.ltb_spec (Qnum q) 0) as [L|L]; cbn [Qopp Qnum]; lia.
Qed.

(** The sign of a [Float64]: a value on one side of zero stays there, up
    to the infinity of that side. *)
Lemma Float64_sign (q : Q) :
  match Float64 q with
  | Fin v => (Qnum q <= 0 -> Qnum v <= 0) /\ (0 <= Qnum q -> 0 <= Qnum v)
  | Inf negative => negative = true <-> Qnum q < 0
  end.
Proof.
  unfold Float64.
  destruct (Qle_bool _ _); [|split; apply roundTo_sign].
  destruct (Z.ltb_spec (Qnum q) 0); split; intros; try easy; lia.
Qed.

Lemma Float64_zero (q : Q) : Qnum q = 0 -> Float64 q = Fin 0.
Proof.
  intros Hq. unfold Float64.
  destruct (roundTo_sign (fun e => Z.max (e - 52) (-1074)) q) as (_ & _ & H0).
  now rewrite (H0 Hq).
Qed.

Lemma Qnum_div_pos (x : Q) (z : Z) :
  0 < z -> Qnum (x / inject_Z z) = Qnum x.
Proof.
  intros Hz. destruct z as [|p|p]; try lia. cbn. lia.
Qed.

Lemma calcSpread_prec (oldPrice newPrice : Z) :
  1 <= Z.max (Z.max (bitLen oldPrice) 64) (Z.max (bitLen newPrice) 64).
Proof. lia. Qed.

(** [calcSpread] returns no error: it gives a value or panics. *)
Lemma calcSpread_no_error (oldPrice newPrice : Z) (err : error) :
  calcSpread oldPrice newPrice <> Err err.
Proof.
  unfold calcSpread. cbn zeta.
  destruct (oldPrice =? 0); [|easy]. now destruct (Qnum _ =? 0).
Qed.

(** For a positive old price the result is a number or an infinity on the
    side of zero of [newPrice - oldPrice]. *)
Lemma calcSpread_positive_old (oldPrice newPrice : Z) :
  0 < oldPrice ->
  exists f : float,
    calcSpread oldPrice newPrice = Ok f
    /\ match f with
       | Fin v =>
         (newPrice <= oldPrice -> Qnum v <= 0)
         /\ (oldPrice <= newPrice -> 0 <= Qnum v)
       | Inf negative => negative = true <-> newPrice < oldPrice
       end.
Proof.
  intros Hold. unfold calcSpread. cbn zeta.
  destruct (Z.eqb_spec oldPrice 0) as [E|_]; [lia|].
  eexists. split; [reflexivity|].
  pose proof (calcSpread_prec oldPrice newPrice) as Hprec.
  set (prec := Z.max _ _) in *.
  destruct (roundPrec_sign prec (inject_Z (newPrice - oldPrice)) Hprec)
    as (H1n & H1z & H1p). cbn [Qnum inject_Z] in H1n, H1z, H1p.
  set (x1 := roundPrec prec (inject_Z (newPrice - oldPrice))) in *.
  destruct (roundPrec_sign prec (x1 / inject_Z oldPrice) Hprec)
    as (H2n & H2z & H2p). rewrite (Qnum_div_pos x1 oldPrice Hold) in *.
  set (x2 := roundPrec prec (x1 / inject_Z oldPrice)) in *.
  destruct (roundPrec_sign prec (x2 * inject_Z 100) Hprec)
    as (H3n & H3z & H3p).
  assert (Hmul : Qnum (x2 * inject_Z 100) = Qnum x2 * 100) by reflexivity.
  rewrite Hmul in *.
  set (x3 := roundPrec prec (x2 * inject_Z 100)) in *.
  pose proof (Float64_sign x3) as Hf.
  destruct (Float64 x3) as [v|negative].
  - destruct Hf as [Hle Hge]. split; intros H.
    + apply Hle.
      destruct (Z.eq_dec newPrice oldPrice) as [->|Hne]; [|lia].
      assert (Qnum x1 = 0) by (apply H1z; lia).
      assert (Qnum x2 = 0) by (apply H2z; lia).
      assert (Qnum x3 = 0) by (apply H3z; lia). lia.
    + apply Hge.
      destruct (Z.eq_dec newPrice oldPrice) as [->|Hne]; [|lia].
      assert (Qnum x1 = 0) by (apply H1z; lia).
      assert (Qnum x2 = 0) by (apply H2z; lia).
      assert (Qnum x3 = 0) by (apply H3z; lia). lia.
  - rewrite Hf. split; intros H; lia.
Qed.

(** * Properties of the relayer *)

Section EngineFacts.

Variable Prices_Truncate : Z -> Prices -> Prices.
Variable Prices_Median : Prices -> option Z.

Lemma index_lookup (m : gmap string Pair) (k : string) (pair : Pair) :
  m !! k = Some pair -> index m k = pair.
Proof. intros H. unfold index. now rewrite H. Qed.

Lemma index_missing (m : gmap string Pair) (k : string) :
  m !! k = None -> index m k = zeroPair.
Proof. intros H. unfold index. now rewrite H. Qed.

Lemma index_store (r : Relayer) (k : string) (p : Prices) :
  index (pairs (store r k p)) k = with_prices (index (pairs r) k) p.
Proof. unfold index, store. cbn. now rewrite lookup_insert_eq. Qed.

Lemma prices_store (r : Relayer) (k : string) (p : Prices) :
  prices (index (pairs (store r k p)) k) = Some p.
Proof. now rewrite index_store. Qed.

Lemma store_store (r : Relayer) (k : string) (p q : Prices) :
  store (store r k p) k q = store r k q.
Proof.
  unfold store at 1. rewrite index_store. unfold store. cbn.
  now rewrite insert_insert_eq.
Qed.

Lemma Len_Clear (p : Prices) : Prices_Len (Prices_Clear p) = 0.
Proof. reflexivity. Qed.

Lemma readings_ClearExpired (now : Z) (p : Prices) (x : oracle.Price) :
  In x (readings (Prices_ClearExpired now p))
  <-> In x (readings p) /\ expired now (expiration p) x = false.
Proof.
  unfold Prices_ClearExpired. cbn. rewrite filter_In.
  now rewrite negb_true_iff.
Qed.

(** The first steps of [relay], common to every path: the pair is read,
    its buffer loses the expired readings, the contract is asked its age. *)
Lemma relay_unfold (clk : Clock) (r : Relayer) (a : string) (pair : Pair)
      (buf : Prices) (median : oracle.Median) :
  pairs r !! a = Some pair ->
  prices pair = Some buf ->
  Median pair = Some median ->
  relay Prices_Truncate Prices_Median clk r a =
  let kept := Prices_ClearExpired (clearTime clk) buf in
  match oracle.MAge median with
  | Failure msg => (store r a kept, [CallAge], Err (Remote msg))
  | Reply oracleTime =>
    if gateTime clk <? oracleTime + OracleExpiration pair then
      (store r a kept, [CallAge], Err errNotExpired)
    else
      match oracle.Bar median with
      | Failure msg => (store r a kept, [CallAge; CallBar], Err (Remote msg))
      | Reply quorum =>
        if Prices_Len kept <? quorum then
          (store r a kept, [CallAge; CallBar], Err errQuorum)
        else
          let cut := Prices_Truncate quorum kept in
          match Prices_Median cut with
          | None =>
            (store r a cut, [CallAge; CallBar], Panic "index out of range")
          | Some medianPrice =>
            match oracle.MPrice median with
            | Failure msg =>
              (store r a cut, [CallAge; CallBar; CallPrice], Err (Remote msg))
            | Reply oldPrice =>
              match calcSpread oldPrice medianPrice with
              | Err err => (store r a cut, [CallAge; CallBar; CallPrice], Err err)
              | Panic msg =>
                (store r a cut, [CallAge; CallBar; CallPrice], Panic msg)
              | Ok spread =>
                if float_ltb spread (OracleSpread pair) then
                  (store r a cut, [CallAge; CallBar; CallPrice], Err errSpread)
                else
                  (store r a (Prices_Clear cut),
                   [CallAge; CallBar; CallPrice; CallPoke (Prices_Get cut)],
                   match oracle.Poke median (Prices_Get cut) with
                   | Reply _ => Ok tt
                   | Failure msg => Err (Remote msg)
                   end)
              end
            end
          end
      end
  end.
Proof.
  intros Hpair Hbuf Hmed. unfold relay.
  rewrite (index_lookup _ _ _ Hpair), Hbuf, Hmed. cbn zeta.
  destruct (oracle.MAge median) as [oracleTime|]; [|reflexivity].
  destruct (gateTime clk <? _); [reflexivity|].
  destruct (oracle.Bar median) as [quorum|]; [|reflexivity].
  destruct (Prices_Len _ <? quorum); [reflexivity|].
  rewrite !store_store. reflexivity.
Qed.

Lemma Collect_missing_pair (r : Relayer) (price : oracle.Price) :
  oracle.Val price <> 0 ->
  pairs r !! oracle.AssetPair price = None ->
  prices (index (pairs r) (oracle.AssetPair price)) = None.
Proof. intros _ H. now rewrite (index_missing _ _ H). Qed.

(** C1. [Collect] indexes [r.pairs] without an existence check: for a price
    point with a non-zero value whose asset pair is not registered, the
    index yields the zero [Pair], whose buffer pointer is nil, and the call
    of [Add] through it panics; no error is returned and the engine is left
    as it was. *)
Theorem Collect_unregistered_pair_panics (r : Relayer) (price : oracle.Price) :
  oracle.Val price <> 0 ->
  pairs r !! oracle.AssetPair price = None ->
  Collect r price = (r, Panic nilDereference).
Proof.
  intros Hval Hnone. unfold Collect.
  destruct (Z.eqb_spec (oracle.Val price) 0) as [E|_]; [contradiction|].
  now rewrite (Collect_missing_pair r price Hval Hnone).
Qed.

Lemma Collect_unregistered_pair_panics_witness :
  Collect (NewRelayer 1) (oracle.mkPrice ETHUSD 1 0)
  = (NewRelayer 1, Panic nilDereference).
Proof.
  apply (Collect_unregistered_pair_panics (NewRelayer 1)
           (oracle.mkPrice ETHUSD 1 0)).
  - cbn. lia.
  - reflexivity.
Defined.

(** A price below the on-chain one has a spread that is not positive (or
    the negative infinity), which is below every positive threshold. *)
Lemma calcSpread_drop (oldPrice newPrice : Z) (threshold : Q) :
  0 < oldPrice -> newPrice < oldPrice -> (0 < threshold)%Q ->
  exists f, calcSpread oldPrice newPrice = Ok f
            /\ float_ltb f threshold = true.
Proof.
  intros Hold Hnew Hthr.
  destruct (calcSpread_positive_old oldPrice newPrice Hold) as (f & Hf & Hsign).
  exists f. split; [exact Hf|].
  destruct f as [v|negative]; cbn.
  - destruct Hsign as [Hle _]. specialize (Hle ltac:(lia)).
    unfold Qltb. apply negb_true_iff.
    destruct (Qle_bool threshold v) eqn:E; [|reflexivity].
    apply Qle_bool_iff in E.
    assert (Hv : (v <= 0)%Q) by (unfold Qle; cbn; lia).
    lra.
  - apply Hsign. exact Hnew.
Qed.

(** C2. The spread gate of [relay] compares the signed spread with
    [OracleSpread]: whenever the buffered median is below a positive
    on-chain price, the spread is negative and the transition aborts with
    the spread error before any submission, however large the drop. *)
Theorem relay_drop_aborts_spread_too_low
        (clk : Clock) (r : Relayer) (a : string) (pair : Pair) (buf : Prices)
        (median : oracle.Median) (oracleTime quorum medianPrice oldPrice : Z) :
  pairs r !! a = Some pair ->
  prices pair = Some buf ->
  Median pair = Some median ->
  oracle.MAge median = Reply oracleTime ->
  oracleTime + OracleExpiration pair <= gateTime clk ->
  oracle.Bar median = Reply quorum ->
  quorum <= Prices_Len (Prices_ClearExpired (clearTime clk) buf) ->
  Prices_Median
    (Prices_Truncate quorum (Prices_ClearExpired (clearTime clk) buf))
  = Some medianPrice ->
  oracle.MPrice median = Reply oldPrice ->
  0 < oldPrice ->
  medianPrice < oldPrice ->
  (0 < OracleSpread pair)%Q ->
  relay Prices_Truncate Prices_Median clk r a
  = (store r a
       (Prices_Truncate quorum (Prices_ClearExpired (clearTime clk) buf)),
     [CallAge; CallBar; CallPrice], Err errSpread).
Proof.
  intros Hpair Hbuf Hmed Hage Hexp Hbar Hlen Hmedian Hprice Hold Hdrop Hthr.
  rewrite (relay_unfold clk r a pair buf median Hpair Hbuf Hmed).
  cbn zeta. rewrite Hage.
  destruct (Z.ltb_spec (gateTime clk) (oracleTime + OracleExpiration pair));
    [lia|].
  rewrite Hbar.
  destruct (Z.ltb_spec (Prices_Len (Prices_ClearExpired (clearTime clk) buf))
                       quorum); [lia|].
  rewrite Hmedian, Hprice.
  destruct (calcSpread_drop oldPrice medianPrice (OracleSpread pair)
              Hold Hdrop Hthr) as (f & -> & ->).
  reflexivity.
Qed.

(** C3. When the expiration, quorum and spread gates of [relay] pass, the
    only submission is one [Poke] with the readings the buffer holds after
    [Truncate quorum], and whatever [Poke] answers (success or error) the
    buffer stored for the pair is then empty. *)
Theorem relay_submits_truncated_then_clears
        (clk : Clock) (r : Relayer) (a : string) (pair : Pair) (buf : Prices)
        (median : oracle.Median)
        (oracleTime quorum medianPrice oldPrice : Z) (spread : float) :
  pairs r !! a = Some pair ->
  prices pair = Some buf ->
  Median pair = Some median ->
  oracle.MAge median = Reply oracleTime ->
  oracleTime + OracleExpiration pair <= gateTime clk ->
  oracle.Bar median = Reply quorum ->
  quorum <= Prices_Len (Prices_ClearExpired (clearTime clk) buf) ->
  Prices_Median
    (Prices_Truncate quorum (Prices_ClearExpired (clearTime clk) buf))
  = Some medianPrice ->
  oracle.MPrice median = Reply oldPrice ->
  calcSpread oldPrice medianPrice = Ok spread ->
  float_ltb spread (OracleSpread pair) = false ->
  exists (r' : Relayer) (buf' : Prices),
    relay Prices_Truncate Prices_Median clk r a
    = (r',
       [CallAge; CallBar; CallPrice;
        CallPoke (Prices_Get
                    (Prices_Truncate quorum
                       (Prices_ClearExpired (clearTime clk) buf)))],
       match oracle.Poke median
               (Prices_Get
                  (Prices_Truncate quorum
                     (Prices_ClearExpired (clearTime clk) buf))) with
       | Reply _ => Ok tt
       | Failure msg => Err (Remote msg)
       end)
    /\ prices (index (pairs r') a) = Some buf'
    /\ Prices_Len buf' = 0.
Proof.
  intros Hpair Hbuf Hmed Hage Hexp Hbar Hlen Hmedian Hprice Hspread Hgate.
  rewrite (relay_unfold clk r a pair buf median Hpair Hbuf Hmed).
  cbn zeta. rewrite Hage.
  destruct (Z.ltb_spec (gateTime clk) (oracleTime + OracleExpiration pair));
    [lia|].
  rewrite Hbar.
  destruct (Z.ltb_spec (Prices_Len (Prices_ClearExpired (clearTime clk) buf))
                       quorum); [lia|].
  rewrite Hmedian, Hprice, Hspread, Hgate.
  eexists. eexists. split; [reflexivity|].
  split; [apply prices_store | apply Len_Clear].
Qed.

(** C4. When the expiration gate has passed and the buffer (after the
    removal of expired readings) holds fewer readings than the quorum the
    contract requires, [relay] returns the quorum error, has made no
    [Poke], and the stored buffer is the one the quorum was checked on:
    [Truncate] has not been applied. *)
Theorem relay_insufficient_quorum
        (clk : Clock) (r : Relayer) (a : string) (pair : Pair) (buf : Prices)
        (median : oracle.Median) (oracleTime quorum : Z) :
  pairs r !! a = Some pair ->
  prices pair = Some buf ->
  Median pair = Some median ->
  oracle.MAge median = Reply oracleTime ->
  oracleTime + OracleExpiration pair <= gateTime clk ->
  oracle.Bar median = Reply quorum ->
  Prices_Len (Prices_ClearExpired (clearTime clk) buf) < quorum ->
  exists (r' : Relayer) (calls : list call),
    relay Prices_Truncate Prices_Median clk r a = (r', calls, Err errQuorum)
    /\ forallb (fun c => negb (is_poke c)) calls = true
    /\ prices (index (pairs r') a)
       = Some (Prices_ClearExpired (clearTime clk) buf).
Proof.
  intros Hpair Hbuf Hmed Hage Hexp Hbar Hlen.
  rewrite (relay_unfold clk r a pair buf median Hpair Hbuf Hmed).
  cbn zeta. rewrite Hage.
  destruct (Z.ltb_spec (gateTime clk) (oracleTime + OracleExpiration pair));
    [lia|].
  rewrite Hbar.
  destruct (Z.ltb_spec (Prices_Len (Prices_ClearExpired (clearTime clk) buf))
                       quorum); [|lia].
  eexists. eexists. split; [reflexivity|].
  split; [reflexivity | apply prices_store].
Qed.

(** C5. When the contract's last update time plus the pair's oracle
    expiration is after the current time, [relay] returns the
    not-expired error having made no [Poke], and [Clear] is not applied:
    the stored buffer is the result of [ClearExpired], so every reading
    that has not expired is still in it. *)
Theorem relay_not_yet_expired
        (clk : Clock) (r : Relayer) (a : string) (pair : Pair) (buf : Prices)
        (median : oracle.Median) (oracleTime : Z) :
  pairs r !! a = Some pair ->
  prices pair = Some buf ->
  Median pair = Some median ->
  oracle.MAge median = Reply oracleTime ->
  gateTime clk < oracleTime + OracleExpiration pair ->
  exists (r' : Relayer) (calls : list call) (buf' : Prices),
    relay Prices_Truncate Prices_Median clk r a
    = (r', calls, Err errNotExpired)
    /\ forallb (fun c => negb (is_poke c)) calls = true
    /\ prices (index (pairs r') a) = Some buf'
    /\ buf' = Prices_ClearExpired (clearTime clk) buf
    /\ forall x : oracle.Price,
         In x (readings buf) ->
         expired (clearTime clk) (expiration buf) x = false ->
         In x (readings buf').
Proof.
  intros Hpair Hbuf Hmed Hage Hexp.
  rewrite (relay_unfold clk r a pair buf median Hpair Hbuf Hmed).
  cbn zeta. rewrite Hage.
  destruct (Z.ltb_spec (gateTime clk) (oracleTime + OracleExpiration pair));
    [|lia].
  eexists. eexists. eexists. split; [reflexivity|].
  split; [reflexivity|]. split; [apply prices_store|].
  split; [reflexivity|].
  intros x Hin Hx. apply readings_ClearExpired. now split.
Qed.

(** The buffer stored after [relay], for a registered pair with a contract:
    on the three business aborts it is the buffer without its expired
    readings, cut to the quorum on the spread abort. *)
Lemma relay_abort_buffer
      (clk : Clock) (r : Relayer) (a : string) (pair : Pair) (buf : Prices)
      (median : oracle.Median) (r' : Relayer) (calls : list call)
      (res : result unit) :
  pairs r !! a = Some pair ->
  prices pair = Some buf ->
  Median pair = Some median ->
  relay Prices_Truncate Prices_Median clk r a = (r', calls, res) ->
  (res = Err errNotExpired \/ res = Err errQuorum ->
   prices (index (pairs r') a)
   = Some (Prices_ClearExpired (clearTime clk) buf))
  /\ (res = Err errSpread ->
      exists quorum : Z,
        prices (index (pairs r') a)
        = Some (Prices_Truncate quorum
                  (Prices_ClearExpired (clearTime clk) buf))).
Proof.
  intros Hpair Hbuf Hmed.
  rewrite (relay_unfold clk r a pair buf median Hpair Hbuf Hmed).
  cbn zeta.
  destruct (oracle.MAge median) as [oracleTime|msg].
  2:{ intros [= <- <- <-]. split; [intros [H|H]|intros H]; discriminate H. }
  destruct (gateTime clk <? _).
  { intros [= <- <- <-]. split; [intros _; apply prices_store|].
    intros H; discriminate H. }
  destruct (oracle.Bar median) as [quorum|msg].
  2:{ intros [= <- <- <-]. split; [intros [H|H]|intros H]; discriminate H. }
  destruct (Prices_Len _ <? quorum).
  { intros [= <- <- <-]. split; [intros _; apply prices_store|].
    intros H; discriminate H. }
  destruct (Prices_Median _) as [medianPrice|].
  2:{ intros [= <- <- <-]. split; [intros [H|H]|intros H]; discriminate H. }
  destruct (oracle.MPrice median) as [oldPrice|msg].
  2:{ intros [= <- <- <-]. split; [intros [H|H]|intros H]; discriminate H. }
  pose proof (calcSpread_no_error oldPrice medianPrice) as Hnoerr.
  destruct (calcSpread oldPrice medianPrice) as [spread|err|crash].
  - destruct (float_ltb _ _).
    + intros [= <- <- <-]. split; [intros [H|H]; discriminate H|].
      intros _. exists quorum. apply prices_store.
    + destruct (oracle.Poke median _); intros [= <- <- <-];
        (split; [intros [H|H]|intros H]; discriminate H).
  - now destruct (Hnoerr err).
  - intros [= <- <- <-]. split; [intros [H|H]|intros H]; discriminate H.
Qed.

(** C10. [relay] removes the expired readings before it evaluates any
    gate: after an abort with the not-expired or the quorum error the
    stored buffer is the old one without its expired readings (no expired
    reading is left, and the buffer has changed whenever one was there),
    and after an abort with the spread error it is that cleaned buffer cut
    to the quorum. *)
Theorem relay_clears_expired_before_gates
        (clk : Clock) (r : Relayer) (a : string) (pair : Pair) (buf : Prices)
        (median : oracle.Median) (r' : Relayer) (calls : list call)
        (res : result unit) :
  pairs r !! a = Some pair ->
  prices pair = Some buf ->
  Median pair = Some median ->
  relay Prices_Truncate Prices_Median clk r a = (r', calls, res) ->
  (res = Err errNotExpired \/ res = Err errQuorum ->
   exists buf' : Prices,
     prices (index (pairs r') a) = Some buf'
     /\ buf' = Prices_ClearExpired (clearTime clk) buf
     /\ (forall x : oracle.Price,
           In x (readings buf') ->
           In x (readings buf)
           /\ expired (clearTime clk) (expiration buf) x = false)
     /\ ((exists x : oracle.Price,
            In x (readings buf)
            /\ expired (clearTime clk) (expiration buf) x = true) ->
         buf' <> buf))
  /\ (res = Err errSpread ->
      exists quorum : Z,
        prices (index (pairs r') a)
        = Some (Prices_Truncate quorum
                  (Prices_ClearExpired (clearTime clk) buf))).
Proof.
  intros Hpair Hbuf Hmed Hrelay.
  destruct (relay_abort_buffer clk r a pair buf median r' calls res
              Hpair Hbuf Hmed Hrelay) as [Hgate Hspread].
  split; [|exact Hspread].
  intros Hres. eexists. split; [exact (Hgate Hres)|].
  split; [reflexivity|]. split.
  - intros x Hx. now apply readings_ClearExpired.
  - intros (x & Hin & Hx) Heq.
    assert (Hkept : In x (readings (Prices_ClearExpired (clearTime clk) buf)))
      by now rewrite Heq.
    apply readings_ClearExpired in Hkept. destruct Hkept as [_ Hkept].
    congruence.
Qed.

(** The events of the range loop are calls and channel sends only. *)
Lemma rangePairs_no_locking (clk : string -> Clock)
      (onSuccessChan onErrChan : bool) (keys : list string) (r : Relayer) :
  forallb (fun e => negb (isLocking e))
          (snd (fst (rangePairs Prices_Truncate Prices_Median clk
                                onSuccessChan onErrChan keys r))) = true.
Proof.
  revert r. induction keys as [|k keys IH]; intros r; cbn; [reflexivity|].
  destruct (prices (index (pairs r) k)) as [buf|]; [|reflexivity].
  destruct (Prices_Len buf =? 0); [apply IH|].
  destruct (relay _ _ _ r k) as [[r1 calls] res].
  assert (Hcalls : forall rest,
             forallb (fun e => negb (isLocking e)) rest = true ->
             forallb (fun e => negb (isLocking e))
                     (map (EvCall k) calls ++ rest) = true).
  { intros rest Hrest. rewrite forallb_app, Hrest, andb_true_r.
    clear. induction calls as [|c calls IHc]; [reflexivity|exact IHc]. }
  destruct res as [u|err|msg].
  - specialize (IH r1).
    destruct (rangePairs _ _ _ _ _ keys r1) as [[r2 rest] crashed].
    cbn in *. apply Hcalls. rewrite forallb_app, IH.
    now destruct onSuccessChan.
  - specialize (IH r1).
    destruct (rangePairs _ _ _ _ _ keys r1) as [[r2 rest] crashed].
    cbn in *. apply Hcalls. rewrite forallb_app, IH.
    now destruct onErrChan.
  - cbn. rewrite <- (app_nil_r (map _ _)). now apply Hcalls.
Qed.

Lemma callsWhile_locked_app (evs t : list event) :
  forallb (fun e => negb (isLocking e)) evs = true ->
  callsWhile true true (evs ++ t) = callsWhile true true t.
Proof.
  induction evs as [|e evs IH]; [reflexivity|].
  cbn [forallb]. intros [He Hevs]%andb_true_iff.
  destruct e; cbn in *; try discriminate He; now apply IH.
Qed.

(** C9 (as the code has it). A tick takes the engine's mutex once, before
    the pairs are visited, and releases it once, after the last pair (never,
    if a transition panics): every remote call of the relay transitions
    happens while the mutex is held. *)
Theorem tick_calls_hold_the_lock (clk : string -> Clock)
        (onSuccessChan onErrChan : bool) (r : Relayer) :
  exists body tail : list event,
    snd (tick Prices_Truncate Prices_Median clk onSuccessChan onErrChan r)
    = EvLock :: body ++ tail
    /\ forallb (fun e => negb (isLocking e)) body = true
    /\ (tail = [] \/ tail = [EvUnlock])
    /\ callsWhile true false
         (snd (tick Prices_Truncate Prices_Median clk
                    onSuccessChan onErrChan r)) = true.
Proof.
  unfold tick, tickOver.
  pose proof (rangePairs_no_locking clk onSuccessChan onErrChan
                (map fst (map_to_list (pairs r))) r) as Hbody.
  destruct (rangePairs _ _ _ _ _ _ r) as [[r1 evs] crashed].
  cbn in *. exists evs, (if crashed then [] else [EvUnlock]).
  split; [reflexivity|]. split; [exact Hbody|].
  split; [destruct crashed; auto|].
  rewrite (callsWhile_locked_app evs _ Hbody). now destruct crashed.
Qed.

End EngineFacts.

(** On-chain price 100, three readings of 50, threshold 2: the spread is
    -50, its absolute value 50 is not below 2, and the transition aborts
    with the spread error without a submission. *)
Lemma relay_drop_aborts_spread_too_low_witness :
  (exists q, calcSpread 100 50 = Ok (Fin q) /\ (q == -50)%Q
             /\ float_ltb (float_abs (Fin q)) 2 = false)
  /\ (let r := testRelayer (testPair 2 (testMedian 100 (Reply tt)))
                           [(50, 1900); (50, 1900); (50, 1900)] in
      relay specTruncate specMedian (mkClock 2000 2000) r ETHUSD
      = (r, [CallAge; CallBar; CallPrice], Err errSpread)).
Proof.
  split.
  - eexists. split; [vm_compute; reflexivity|].
    split; vm_compute; reflexivity.
  - cbn zeta.
    rewrite (relay_drop_aborts_spread_too_low specTruncate specMedian
               (mkClock 2000 2000)
               (testRelayer (testPair 2 (testMedian 100 (Reply tt)))
                            [(50, 1900); (50, 1900); (50, 1900)])
               ETHUSD
               (with_prices (testPair 2 (testMedian 100 (Reply tt)))
                  (mkPrices ETHUSD 300
                     [oracle.mkPrice ETHUSD 50 1900;
                      oracle.mkPrice ETHUSD 50 1900;
                      oracle.mkPrice ETHUSD 50 1900]))
               (mkPrices ETHUSD 300
                     [oracle.mkPrice ETHUSD 50 1900;
                      oracle.mkPrice ETHUSD 50 1900;
                      oracle.mkPrice ETHUSD 50 1900])
               (testMedian 100 (Reply tt)) 1000 3 50 100).
    + vm_compute. reflexivity.
    + vm_compute. reflexivity.
    + reflexivity.
    + reflexivity.
    + reflexivity.
    + cbn. lia.
    + reflexivity.
    + vm_compute. intros H; discriminate H.
    + reflexivity.
    + reflexivity.
    + lia.
    + lia.
    + reflexivity.
Defined.

(** Side conditions on concrete data. *)
Ltac side :=
  first [ vm_compute; reflexivity
        | reflexivity
        | vm_compute; intros H; discriminate H
        | cbn; lia ].

(** On-chain price 100, buffered median 101, threshold 2: the spread is 1
    and the transition aborts with the spread error without a submission. *)
Example relay_spread_one_percent :
  (exists q, calcSpread 100 101 = Ok (Fin q) /\ (q == 1)%Q)
  /\ specMedian (testPrices [(100, 1900); (101, 1900); (102, 1900)]) = Some 101
  /\ (let r := testRelayer (testPair 2 (testMedian 100 (Reply tt)))
                           [(100, 1900); (101, 1900); (102, 1900)] in
      relay specTruncate specMedian (mkClock 2000 2000) r ETHUSD
      = (r, [CallAge; CallBar; CallPrice], Err errSpread)).
Proof.
  split; [eexists; split; vm_compute; reflexivity|].
  split; vm_compute; reflexivity.
Qed.

(** On-chain price 100, three readings of 105, threshold 2: the spread is
    5 (as a [float64], 5 * 2^50 in units of 2^-50), the three readings are
    submitted and the buffer is empty afterwards, when the
    submission succeeds and when it fails. *)
Lemma relay_submits_truncated_then_clears_witness :
  (exists (r' : Relayer) (buf' : Prices),
      relay specTruncate specMedian (mkClock 2000 2000)
            (testRelayer (testPair 2 (testMedian 100 (Reply tt)))
                         [(105, 1900); (105, 1900); (105, 1900)])
            ETHUSD
      = (r',
         [CallAge; CallBar; CallPrice;
          CallPoke (readings
                      (testPrices [(105, 1900); (105, 1900); (105, 1900)]))],
         Ok tt)
      /\ prices (index (pairs r') ETHUSD) = Some buf'
      /\ Prices_Len buf' = 0)
  /\ (exists (r' : Relayer) (buf' : Prices),
      relay specTruncate specMedian (mkClock 2000 2000)
            (testRelayer (testPair 2 (testMedian 100 (Failure "reverted")))
                         [(105, 1900); (105, 1900); (105, 1900)])
            ETHUSD
      = (r',
         [CallAge; CallBar; CallPrice;
          CallPoke (readings
                      (testPrices [(105, 1900); (105, 1900); (105, 1900)]))],
         Err (Remote "reverted"))
      /\ prices (index (pairs r') ETHUSD) = Some buf'
      /\ Prices_Len buf' = 0).
Proof.
  split.
  - apply (relay_submits_truncated_then_clears specTruncate specMedian
             (mkClock 2000 2000)
             (testRelayer (testPair 2 (testMedian 100 (Reply tt)))
                          [(105, 1900); (105, 1900); (105, 1900)])
             ETHUSD
             (with_prices (testPair 2 (testMedian 100 (Reply tt)))
                (testPrices [(105, 1900); (105, 1900); (105, 1900)]))
             (testPrices [(105, 1900); (105, 1900); (105, 1900)])
             (testMedian 100 (Reply tt)) 1000 3 105 100
             (Fin (Qmake (5 * 2 ^ 50) (Z.to_pos (2 ^ 50))))); side.
  - apply (relay_submits_truncated_then_clears specTruncate specMedian
             (mkClock 2000 2000)
             (testRelayer (testPair 2 (testMedian 100 (Failure "reverted")))
                          [(105, 1900); (105, 1900); (105, 1900)])
             ETHUSD
             (with_prices (testPair 2 (testMedian 100 (Failure "reverted")))
                (testPrices [(105, 1900); (105, 1900); (105, 1900)]))
             (testPrices [(105, 1900); (105, 1900); (105, 1900)])
             (testMedian 100 (Failure "reverted")) 1000 3 105 100
             (Fin (Qmake (5 * 2 ^ 50) (Z.to_pos (2 ^ 50))))); side.
Defined.

(** Quorum 3 and two readings: the quorum error, no call beyond the age
    and quorum queries, both readings still buffered. *)
Lemma relay_insufficient_quorum_witness :
  exists (r' : Relayer) (calls : list call),
    relay specTruncate specMedian (mkClock 2000 2000)
          (testRelayer (testPair 2 (testMedian 100 (Reply tt)))
                       [(105, 1900); (106, 1900)])
          ETHUSD
    = (r', calls, Err errQuorum)
    /\ forallb (fun c => negb (is_poke c)) calls = true
    /\ prices (index (pairs r') ETHUSD)
       = Some (Prices_ClearExpired 2000 (testPrices [(105, 1900); (106, 1900)])).
Proof.
  apply (relay_insufficient_quorum specTruncate specMedian
           (mkClock 2000 2000)
           (testRelayer (testPair 2 (testMedian 100 (Reply tt)))
                        [(105, 1900); (106, 1900)])
           ETHUSD
           (with_prices (testPair 2 (testMedian 100 (Reply tt)))
              (testPrices [(105, 1900); (106, 1900)]))
           (testPrices [(105, 1900); (106, 1900)])
           (testMedian 100 (Reply tt)) 1000 3); side.
Defined.

(** The contract was updated at 1000 and the oracle expiration is 60: at
    time 1050 the transition aborts; of the readings taken at 700 and 1000
    (price expiration 300, cleaned at 1040) the second is kept. *)
Lemma relay_not_yet_expired_witness :
  exists (r' : Relayer) (calls : list call) (buf' : Prices),
    relay specTruncate specMedian (mkClock 1040 1050)
          (testRelayer (testPair 2 (testMedian 100 (Reply tt)))
                       [(105, 700); (106, 1000)])
          ETHUSD
    = (r', calls, Err errNotExpired)
    /\ forallb (fun c => negb (is_poke c)) calls = true
    /\ prices (index (pairs r') ETHUSD) = Some buf'
    /\ buf' = Prices_ClearExpired 1040 (testPrices [(105, 700); (106, 1000)])
    /\ forall x : oracle.Price,
         In x (readings (testPrices [(105, 700); (106, 1000)])) ->
         expired 1040 300 x = false ->
         In x (readings buf').
Proof.
  apply (relay_not_yet_expired specTruncate specMedian
           (mkClock 1040 1050)
           (testRelayer (testPair 2 (testMedian 100 (Reply tt)))
                        [(105, 700); (106, 1000)])
           ETHUSD
           (with_prices (testPair 2 (testMedian 100 (Reply tt)))
              (testPrices [(105, 700); (106, 1000)]))
           (testPrices [(105, 700); (106, 1000)])
           (testMedian 100 (Reply tt)) 1000); side.
Defined.

(** The same abort, seen from the buffer: the reading taken at 700 is gone
    although nothing was submitted. *)
Lemma relay_clears_expired_before_gates_witness :
  bufferOf (testRelayer (testPair 2 (testMedian 100 (Reply tt)))
                        [(105, 700); (106, 1000)])
  = [(105, 700); (106, 1000)]
  /\ exists buf' : Prices,
      prices (index
                (pairs (fst (fst
                   (relay specTruncate specMedian (mkClock 1040 1050)
                      (testRelayer (testPair 2 (testMedian 100 (Reply tt)))
                                   [(105, 700); (106, 1000)])
                      ETHUSD))))
                ETHUSD) = Some buf'
      /\ readings buf' = [oracle.mkPrice ETHUSD 106 1000]
      /\ buf' <> testPrices [(105, 700); (106, 1000)].
Proof.
  split; [vm_compute; reflexivity|].
  destruct (relay_clears_expired_before_gates specTruncate specMedian
              (mkClock 1040 1050)
              (testRelayer (testPair 2 (testMedian 100 (Reply tt)))
                           [(105, 700); (106, 1000)])
              ETHUSD
              (with_prices (testPair 2 (testMedian 100 (Reply tt)))
                 (testPrices [(105, 700); (106, 1000)]))
              (testPrices [(105, 700); (106, 1000)])
              (testMedian 100 (Reply tt))
              (fst (fst
                 (relay specTruncate specMedian (mkClock 1040 1050)
                    (testRelayer (testPair 2 (testMedian 100 (Reply tt)))
                                 [(105, 700); (106, 1000)])
                    ETHUSD)))
              [CallAge] (Err errNotExpired)) as [Hgate _]; try side.
  destruct (Hgate (or_introl eq_refl)) as (buf' & Hstored & Hbuf & _ & Hchanged).
  exists buf'. split; [exact Hstored|]. split; [now rewrite Hbuf|].
  apply Hchanged. exists (oracle.mkPrice ETHUSD 105 700).
  split; [now left | reflexivity].
Defined.

(** C9 (as the spec has it) fails: in the tick of an engine with one pair
    and three buffered readings, remote calls are made, and not all of them
    (in fact none) happen with the mutex released. *)
Lemma tick_calls_outside_lock_counterexample :
  snd (tick specTruncate specMedian (fun _ => mkClock 2000 2000) true true
            (testRelayer (testPair 2 (testMedian 100 (Reply tt)))
                         [(105, 1900); (105, 1900); (105, 1900)]))
  = [EvLock;
     EvCall ETHUSD CallAge; EvCall ETHUSD CallBar; EvCall ETHUSD CallPrice;
     EvCall ETHUSD
            (CallPoke (readings
                         (testPrices [(105, 1900); (105, 1900); (105, 1900)])));
     EvSendSuccess ETHUSD;
     EvUnlock]
  /\ callsWhile false false
       (snd (tick specTruncate specMedian (fun _ => mkClock 2000 2000)
                  true true
                  (testRelayer (testPair 2 (testMedian 100 (Reply tt)))
                               [(105, 1900); (105, 1900); (105, 1900)])))
     <> true.
Proof.
  split; [vm_compute; reflexivity|].
  vm_compute. intros H; discriminate H.
Qed.

(** * Properties of the block scanner *)

Module TeleportFacts.

Import teleportevm.

(** ** The block-range cursor *)

Lemma splitBlockRanges_contiguous (limit to : Z) (fuel : nat) (from : Z) :
  0 < limit ->
  from <= to + 1 ->
  to - from + 1 <= Z.of_nat fuel ->
  contiguous from (splitBlockRanges fuel from to limit) to
  /\ Forall (fun r => 1 <= width r <= limit)
            (splitBlockRanges fuel from to limit).
Proof.
  intros Hlimit. revert from.
  induction fuel as [|fuel IH]; intros from Hfrom Hfuel; cbn [splitBlockRanges].
  - split; [cbn; lia | constructor].
  - destruct (Z.ltb_spec to from) as [Hdone|Hmore].
    + split; [cbn; lia | constructor].
    + destruct (IH (Z.min (from + limit - 1) to + 1)) as [Hc Hw]; [lia..|].
      split.
      * cbn. split; [reflexivity|]. split; [lia | exact Hc].
      * constructor; [unfold width; cbn; lia | exact Hw].
Qed.

Lemma contiguous_bounds (rs : list BlockRange) (start stop : Z) :
  contiguous start rs stop ->
  start <= stop + 1
  /\ forall r, In r rs -> start <= FromBlock r /\ ToBlock r <= stop.
Proof.
  revert start. induction rs as [|r rs IH]; intros start; cbn.
  - intros ->. split; [lia | intros r []].
  - intros (Hfrom & Hle & Hrest). destruct (IH _ Hrest) as [Hs Hin].
    split; [lia|]. intros r' [<-|Hr']; [lia|].
    destruct (Hin r' Hr'). lia.
Qed.

Lemma contiguous_ascending (rs : list BlockRange) (start stop : Z) :
  contiguous start rs stop -> ascending rs.
Proof.
  revert start. induction rs as [|r rs IH]; intros start; cbn; [trivial|].
  intros (Hfrom & Hle & Hrest). split; [|exact (IH _ Hrest)].
  destruct rs as [|r' rs]; [trivial|]. cbn in Hrest. lia.
Qed.

Lemma contiguous_covers (rs : list BlockRange) (start stop b : Z) :
  contiguous start rs stop ->
  (exists r, In r rs /\ covers r b) <-> start <= b <= stop.
Proof.
  revert start. induction rs as [|r rs IH]; intros start; cbn.
  - intros ->. split; [intros (r & [] & _) | lia].
  - intros (Hfrom & Hle & Hrest).
    destruct (contiguous_bounds _ _ _ Hrest) as [Hs _].
    specialize (IH _ Hrest). unfold covers in *. split.
    + intros (r' & [<-|Hin] & Hb); [lia|].
      assert (ToBlock r + 1 <= b <= stop) by (apply IH; eauto). lia.
    + intros Hb. destruct (Z.le_gt_cases b (ToBlock r)).
      * exists r. split; [now left | lia].
      * destruct IH as [_ IH]. destruct IH as (r' & Hin & Hr'); [lia|].
        exists r'. split; [now right | exact Hr'].
Qed.

Lemma contiguous_disjoint (rs : list BlockRange) (start stop : Z) :
  contiguous start rs stop ->
  forall (i j : nat) (r r' : BlockRange) (b : Z),
    rs !! i = Some r -> rs !! j = Some r' ->
    covers r b -> covers r' b -> i = j.
Proof.
  revert start. induction rs as [|r0 rs IH]; intros start Hc i j r r' b.
  - intros H. discriminate H.
  - cbn in Hc. destruct Hc as (Hfrom & Hle & Hrest).
    destruct (contiguous_bounds _ _ _ Hrest) as [_ Hin].
    unfold covers.
    destruct i as [|i], j as [|j]; cbn.
    + reflexivity.
    + intros [= <-] Hj Hb Hb'.
      apply list_elem_of_lookup_2, list_elem_of_In, Hin in Hj. lia.
    + intros Hi [= <-] Hb Hb'.
      apply list_elem_of_lookup_2, list_elem_of_In, Hin in Hi. lia.
    + intros Hi Hj Hb Hb'. f_equal. exact (IH _ Hrest i j r r' b Hi Hj Hb Hb').
Qed.

Lemma blockRanges_contiguous (head confirmations limit lastProcessed : Z) :
  0 < limit ->
  lastProcessed < head - confirmations ->
  contiguous (lastProcessed + 1)
             (blockRanges head confirmations limit lastProcessed)
             (head - confirmations)
  /\ Forall (fun r => 1 <= width r <= limit)
            (blockRanges head confirmations limit lastProcessed).
Proof.
  intros Hlimit Hsafe. unfold blockRanges.
  destruct (Z.leb_spec (head - confirmations) lastProcessed); [lia|].
  apply splitBlockRanges_contiguous; lia.
Qed.

(** When every fetch succeeds, all the ranges are queried and the cursor
    ends on the last block of the last range. *)
Lemma scanRanges_all_succeed (contentHash : Log -> bytes)
      (FilterLogs : BlockRange -> reply (list Log))
      (rs : list BlockRange) (start stop : Z) :
  (forall r, exists found, FilterLogs r = Reply found) ->
  contiguous start rs stop ->
  exists evs,
    scanRanges contentHash FilterLogs (start - 1) rs = (stop, rs, evs, None).
Proof.
  intros Hok. revert start. induction rs as [|r rs IH]; intros start; cbn.
  - intros ->. eexists. f_equal. f_equal. f_equal. lia.
  - intros (Hfrom & Hle & Hrest). destruct (Hok r) as [found ->].
    destruct (IH _ Hrest) as [evs Hevs].
    replace (ToBlock r + 1 - 1) with (ToBlock r) in Hevs by lia.
    rewrite Hevs. eexists. reflexivity.
Qed.

(** C6. For a positive block limit and a safe height above the cursor, the
    ranges of one scan start right after the cursor, follow one another
    without gap up to the safe height, each hold between one and [limit]
    blocks, are in ascending order, cover exactly the blocks of
    (lastProcessed, head - confirmations], each block once; and when every
    fetch succeeds the cursor ends at the safe height. *)
Theorem blockRanges_cover_safe_interval
        (head confirmations limit lastProcessed : Z) :
  0 < limit ->
  lastProcessed < head - confirmations ->
  contiguous (lastProcessed + 1)
             (blockRanges head confirmations limit lastProcessed)
             (head - confirmations)
  /\ Forall (fun r => 1 <= width r <= limit)
            (blockRanges head confirmations limit lastProcessed)
  /\ ascending (blockRanges head confirmations limit lastProcessed)
  /\ (forall b : Z,
        (exists r, In r (blockRanges head confirmations limit lastProcessed)
                   /\ covers r b)
        <-> lastProcessed < b <= head - confirmations)
  /\ (forall (i j : nat) (r r' : BlockRange) (b : Z),
        blockRanges head confirmations limit lastProcessed !! i = Some r ->
        blockRanges head confirmations limit lastProcessed !! j = Some r' ->
        covers r b -> covers r' b -> i = j)
  /\ (forall (contentHash : Log -> bytes)
             (FilterLogs : BlockRange -> reply (list Log)),
        (forall r, exists found, FilterLogs r = Reply found) ->
        fst (fst (fst (scanRanges contentHash FilterLogs lastProcessed
                         (blockRanges head confirmations limit
                                      lastProcessed))))
        = head - confirmations).
Proof.
  intros Hlimit Hsafe.
  destruct (blockRanges_contiguous head confirmations limit lastProcessed
              Hlimit Hsafe) as [Hc Hw].
  split; [exact Hc|]. split; [exact Hw|].
  split; [exact (contiguous_ascending _ _ _ Hc)|].
  split.
  { intros b. rewrite (contiguous_covers _ _ _ b Hc). lia. }
  split; [exact (contiguous_disjoint _ _ _ Hc)|].
  intros contentHash FilterLogs Hok.
  destruct (scanRanges_all_succeed contentHash FilterLogs _ _ _ Hok Hc)
    as [evs Hevs].
  replace (lastProcessed + 1 - 1) with lastProcessed in Hevs by lia.
  now rewrite Hevs.
Qed.

(** Head 1000, two confirmations, limit 100, cursor 700: the ranges are
    [701,800], [801,900], [901,998], and after three successful fetches the
    cursor is 998. *)
Lemma blockRanges_cover_safe_interval_witness :
  blockRanges 1000 2 100 700
  = [mkRange 701 800; mkRange 801 900; mkRange 901 998]
  /\ ascending (blockRanges 1000 2 100 700)
  /\ Forall (fun r => 1 <= width r <= 100) (blockRanges 1000 2 100 700)
  /\ fst (fst (fst (scanRanges (fun _ => expectedHash) fetchTestFilterLogs
                      700 (blockRanges 1000 2 100 700))))
     = 998.
Proof.
  destruct (blockRanges_cover_safe_interval 1000 2 100 700)
    as (_ & Hwidth & Hasc & _ & _ & Hcursor); [lia | lia |].
  split; [reflexivity|]. split; [exact Hasc|]. split; [exact Hwidth|].
  apply (Hcursor (fun _ => expectedHash) fetchTestFilterLogs).
  intros r. exists logs. reflexivity.
Defined.

(** The live-routine test: the three [FilterLogs] intervals it asserts. *)
Lemma fetchTest_queries :
  snd (fst fetchTest)
  = [mkRange 100 109; mkRange 110 118; mkRange 119 124].
Proof. reflexivity. Qed.

(** ** The backfill routine *)

Lemma chunks_descending (limit to : Z) (n s : nat) :
  0 < limit ->
  descending (map (fun i : nat => chunkEndingAt limit (to - Z.of_nat i * limit))
                  (seq s n))
  /\ Forall (fun r => width r = limit)
            (map (fun i : nat => chunkEndingAt limit (to - Z.of_nat i * limit))
                 (seq s n)).
Proof.
  intros Hlimit. revert s. induction n as [|n IH]; intros s.
  - split; [exact I | constructor].
  - destruct (IH (S s)) as [Hd Hw]. cbn [seq map]. split.
    + cbn [descending]. split; [|exact Hd].
      destruct n as [|n]; cbn; [trivial | lia].
    + constructor; [unfold width; cbn; lia | exact Hw].
Qed.

Lemma prefetchRanges_closed_form (timestamp : Z -> Z) (now period limit : Z)
      (k fuel : nat) (to : Z) :
  (k < fuel)%nat ->
  (forall i : nat, (i < k)%nat ->
                   now - period < timestamp (to - Z.of_nat i * limit)) ->
  timestamp (to - Z.of_nat k * limit) <= now - period ->
  prefetchRanges fuel timestamp now period limit to
  = map (fun i : nat => chunkEndingAt limit (to - Z.of_nat i * limit))
        (seq 0 (S k)).
Proof.
  revert fuel to. induction k as [|k IH]; intros fuel to Hfuel Hbefore Hat;
    (destruct fuel as [|fuel]; [lia|]); cbn [prefetchRanges].
  - replace (to - Z.of_nat 0 * limit) with to in * by lia.
    destruct (Z.leb_spec (timestamp to) (now - period)); [|lia].
    cbn [seq map]. do 2 f_equal. lia.
  - pose proof (Hbefore 0%nat ltac:(lia)) as H0.
    replace (to - Z.of_nat 0 * limit) with to in H0 by lia.
    destruct (Z.leb_spec (timestamp to) (now - period)); [lia|].
    rewrite (IH fuel (to - limit)); [|lia| |].
    + replace (seq 0 (S (S k))) with (0%nat :: map S (seq 0 (S k)))
        by (now rewrite seq_shift).
      cbn [map]. rewrite map_map. f_equal; [f_equal; lia|].
      apply map_ext. intros i. f_equal. lia.
    + intros i Hi. specialize (Hbefore (S i) ltac:(lia)).
      replace (to - limit - Z.of_nat i * limit)
        with (to - Z.of_nat (S i) * limit) by lia.
      exact Hbefore.
    + replace (to - limit - Z.of_nat k * limit)
        with (to - Z.of_nat (S k) * limit) by lia.
      exact Hat.
Qed.

(** C7 (as the code has it). Let the boundary be the first block, among
    those sampled by stepping back from the safe height in strides of
    [limit], whose timestamp is at or before [now - prefetchPeriod], say
    after [k] strides. The backfill routine then queries exactly the
    [k + 1] chunks of [limit] blocks that end at the sampled blocks, from
    the one ending at the safe height (where the live routine starts) down
    to the one ending at the boundary block: the ranges are emitted in
    strictly decreasing order, and the routine returns after the chunk of
    the boundary block. *)
Theorem prefetch_walks_backward_to_boundary
        (cfg : Config) (timestamp : Z -> Z) (now head : Z) (k : nat) :
  0 < BlockLimit cfg ->
  Z.of_nat k * BlockLimit cfg <= head - BlockConfirmations cfg ->
  (forall i : nat,
      (i < k)%nat ->
      now - PrefetchPeriod cfg
      < timestamp (head - BlockConfirmations cfg
                   - Z.of_nat i * BlockLimit cfg)) ->
  timestamp (head - BlockConfirmations cfg - Z.of_nat k * BlockLimit cfg)
  <= now - PrefetchPeriod cfg ->
  prefetchEventsRoutine cfg timestamp now head
  = map (fun i : nat =>
           chunkEndingAt (BlockLimit cfg)
                         (head - BlockConfirmations cfg
                          - Z.of_nat i * BlockLimit cfg))
        (seq 0 (S k))
  /\ descending (prefetchEventsRoutine cfg timestamp now head)
  /\ Forall (fun r => width r = BlockLimit cfg)
            (prefetchEventsRoutine cfg timestamp now head)
  /\ hd_error (prefetchEventsRoutine cfg timestamp now head)
     = Some (chunkEndingAt (BlockLimit cfg) (head - BlockConfirmations cfg))
  /\ last (prefetchEventsRoutine cfg timestamp now head)
     = Some (chunkEndingAt (BlockLimit cfg)
                           (head - BlockConfirmations cfg
                            - Z.of_nat k * BlockLimit cfg)).
Proof.
  intros Hlimit Hk Hbefore Hat.
  assert (Hform : prefetchEventsRoutine cfg timestamp now head
                  = map (fun i : nat =>
                           chunkEndingAt (BlockLimit cfg)
                             (head - BlockConfirmations cfg
                              - Z.of_nat i * BlockLimit cfg))
                        (seq 0 (S k))).
  { unfold prefetchEventsRoutine.
    apply prefetchRanges_closed_form; [|exact Hbefore|exact Hat].
    assert (Z.of_nat k <= (head - BlockConfirmations cfg) / BlockLimit cfg)
      by (apply Z.div_le_lower_bound; lia).
    lia. }
  rewrite Hform. split; [reflexivity|].
  destruct (chunks_descending (BlockLimit cfg)
              (head - BlockConfirmations cfg) (S k) 0 Hlimit) as [Hd Hw].
  split; [exact Hd|]. split; [exact Hw|]. split.
  - cbn. do 2 f_equal. lia.
  - rewrite seq_S, map_app. cbn [map]. now rewrite last_snoc.
Qed.

(** The backfill test: the boundary is block 69, two strides below the safe
    height 99, and the intervals are queried from [85,99] down to [55,69]. *)
Lemma prefetch_walks_backward_to_boundary_witness :
  prefetchTest = [mkRange 85 99; mkRange 70 84; mkRange 55 69]
  /\ descending prefetchTest
  /\ last prefetchTest = Some (mkRange 55 69).
Proof.
  destruct (prefetch_walks_backward_to_boundary prefetchTestConfig
              prefetchTestTimestamp prefetchTestNow 100 2)
    as (Hform & Hd & _ & _ & Hlast).
  - cbn. lia.
  - cbn. lia.
  - intros i Hi. destruct i as [|[|i]]; [reflexivity | reflexivity | lia].
  - vm_compute. intros H; discriminate H.
  - split; [exact Hform|]. split; [exact Hd | exact Hlast].
Defined.

(** C7 (as the spec has it) fails: on the data of the backfill test the
    ranges are not emitted in increasing order. *)
Lemma prefetch_not_increasing_counterexample :
  prefetchTest = [mkRange 85 99; mkRange 70 84; mkRange 55 69]
  /\ ~ ascending prefetchTest.
Proof.
  split; [reflexivity|].
  intros [H _]. vm_compute in H. discriminate H.
Qed.

(** ** Emission *)





End TeleportFacts.

(** * Further properties of the relayer *)

Section EngineMore.

Variable Prices_Truncate : Z -> Prices -> Prices.
Variable Prices_Median : Prices -> option Z.

(** ** Registration and collection *)

Lemma lookup_store_ne (r : Relayer) (a k : string) (p : Prices) :
  k <> a -> pairs (store r a p) !! k = pairs r !! k.
Proof. intros Hk. unfold store. cbn. now rewrite lookup_insert_ne. Qed.

Lemma lookup_store (r : Relayer) (a : string) (p : Prices) :
  pairs (store r a p) !! a = Some (with_prices (index (pairs r) a) p).
Proof. unfold store. cbn. now rewrite lookup_insert_eq. Qed.

Lemma registered_of_prices (r : Relayer) (a : string) (buf : Prices) :
  prices (index (pairs r) a) = Some buf ->
  pairs r !! a = Some (index (pairs r) a).
Proof.
  unfold index. destruct (pairs r !! a) as [pair|]; [reflexivity|].
  intros H. discriminate H.
Qed.

(** [AddPair] registers the pair under its asset pair with a new, empty
    buffer, whatever was registered there before (readings collected for an
    earlier registration are dropped), and leaves the other pairs alone. *)
Theorem AddPair_replaces (r : Relayer) (pair : Pair) :
  pairs (AddPair r pair) !! AssetPair pair
  = Some (with_prices pair
            (NewPrices (AssetPair pair) (PriceExpiration pair)))
  /\ bufferLen (AddPair r pair) (AssetPair pair) = Some 0
  /\ (forall k : string,
        k <> AssetPair pair -> pairs (AddPair r pair) !! k = pairs r !! k)
  /\ interval (AddPair r pair) = interval r.
Proof.
  unfold AddPair, bufferLen, index. cbn.
  rewrite lookup_insert_eq. cbn.
  split; [reflexivity|]. split; [reflexivity|]. split; [|reflexivity].
  intros k Hk. now rewrite lookup_insert_ne.
Qed.


(** [Collect] of a non-zero value for a registered pair succeeds: the
    reading is appended at the end of that pair's buffer, whose length
    grows by one; the pair's settings and the other pairs are unchanged. *)
Theorem Collect_appends (r : Relayer) (price : oracle.Price) (pair : Pair)
        (buf : Prices) :
  oracle.Val price <> 0 ->
  pairs r !! oracle.AssetPair price = Some pair ->
  prices pair = Some buf ->
  exists r' : Relayer,
    Collect r price = (r', Ok tt)
    /\ pairs r' !! oracle.AssetPair price
       = Some (with_prices pair (with_readings buf (readings buf ++ [price])))
    /\ bufferLen r' (oracle.AssetPair price) = Some (Prices_Len buf + 1)
    /\ (forall k : string,
          k <> oracle.AssetPair price -> pairs r' !! k = pairs r !! k)
    /\ sameRegistry r r'.
Proof.
  intros Hval Hpair Hbuf. unfold Collect.
  destruct (Z.eqb_spec (oracle.Val price) 0) as [E|_]; [contradiction|].
  rewrite (index_lookup _ _ _ Hpair), Hbuf. unfold Prices_Add.
  destruct (Z.eqb_spec (oracle.Val price) 0) as [E|_]; [contradiction|].
  eexists. split; [reflexivity|].
  split; [now rewrite lookup_store, (index_lookup _ _ _ Hpair)|].
  split.
  { unfold bufferLen. rewrite prices_store. unfold Prices_Len. cbn.
    rewrite length_app. cbn. f_equal. lia. }
  split; [intros k Hk; now apply lookup_store_ne|].
  split; [reflexivity|]. intros k.
  destruct (decide (k = oracle.AssetPair price)) as [->|Hk].
  - rewrite lookup_store, Hpair, (index_lookup _ _ _ Hpair). cbn.
    split; [repeat split|]. rewrite Hbuf. split; intros H; discriminate H.
  - rewrite (lookup_store_ne _ _ _ _ Hk).
    destruct (pairs r !! k) as [p|]; [|exact I].
    split; [repeat split | reflexivity].
Qed.

Lemma Collect_appends_witness :
  exists r' : Relayer,
    Collect (testRelayer (testPair 2 (testMedian 100 (Reply tt))) [(105, 7)])
            (oracle.mkPrice ETHUSD 106 8)
    = (r', Ok tt)
    /\ bufferOf r' = [(105, 7); (106, 8)].
Proof.
  destruct (Collect_appends
              (testRelayer (testPair 2 (testMedian 100 (Reply tt))) [(105, 7)])
              (oracle.mkPrice ETHUSD 106 8)
              (with_prices (testPair 2 (testMedian 100 (Reply tt)))
                           (testPrices [(105, 7)]))
              (testPrices [(105, 7)]))
    as (r' & Hcollect & Hstored & _); try side.
  exists r'. split; [exact Hcollect|].
  unfold bufferOf, index. cbn in Hstored. now rewrite Hstored.
Defined.

(** ** The spread *)



(** The rounding shows: the spread of 3 -> 4 is the [float64] next to
    100/3, not 100/3; a price of 10^400 over 1 overflows to the positive
    infinity; a move of 1 on a price of 10^400 underflows to zero. *)
Example calcSpread_rounds :
  calcSpread 3 4 = Ok (Fin (Qmake 4691249611844267 (Z.to_pos (2 ^ 47))))
  /\ calcSpread 1 (10 ^ 400) = Ok (Inf false)
  /\ (exists q, calcSpread (10 ^ 400) (10 ^ 400 + 1) = Ok (Fin q)
                /\ (q == 0)%Q).
Proof.
  split; [vm_compute; reflexivity|]. split; [vm_compute; reflexivity|].
  eexists. split; vm_compute; reflexivity.
Qed.


(** ** The transition *)

Lemma sameSettings_refl (p : Pair) : sameSettings p p.
Proof. repeat split. Qed.

Lemma sameRegistry_refl (r : Relayer) : sameRegistry r r.
Proof.
  split; [reflexivity|]. intros k. destruct (pairs r !! k); [|exact I].
  split; [apply sameSettings_refl | reflexivity].
Qed.

Lemma sameRegistry_trans (r1 r2 r3 : Relayer) :
  sameRegistry r1 r2 -> sameRegistry r2 r3 -> sameRegistry r1 r3.
Proof.
  intros [Hi H12] [Hi' H23]. split; [congruence|]. intros k.
  specialize (H12 k). specialize (H23 k).
  destruct (pairs r1 !! k) as [p1|], (pairs r2 !! k) as [p2|],
           (pairs r3 !! k) as [p3|]; try easy.
  destruct H12 as [(A1 & A2 & A3 & A4 & A5) B], H23 as [(C1 & C2 & C3 & C4 & C5) D].
  split; [repeat split; congruence|]. now rewrite B.
Qed.

(** A write to the buffer of a pair that has one changes nothing else. *)
Lemma sameRegistry_store (r : Relayer) (a : string) (buf p : Prices) :
  prices (index (pairs r) a) = Some buf ->
  sameRegistry r (store r a p).
Proof.
  intros Hbuf. pose proof (registered_of_prices r a buf Hbuf) as Hreg.
  split; [reflexivity|]. intros k.
  destruct (decide (k = a)) as [->|Hk].
  - rewrite lookup_store, Hreg. cbn. split; [repeat split|].
    rewrite Hbuf. split; intros H; discriminate H.
  - rewrite (lookup_store_ne _ _ _ _ Hk).
    destruct (pairs r !! k); [|exact I].
    split; [apply sameSettings_refl | reflexivity].
Qed.

(** Every result of [relay], one path at a time. *)
Ltac relay_paths :=
  unfold relay; cbn zeta;
  repeat match goal with
         | |- context [match ?x with _ => _ end] => destruct x eqn:?
         end.

Lemma relay_frame
        (clk : Clock) (r : Relayer) (a : string) :
  sameRegistry r (fst (fst (relay Prices_Truncate Prices_Median clk r a)))
  /\ forall k : string,
      k <> a ->
      pairs (fst (fst (relay Prices_Truncate Prices_Median clk r a))) !! k
      = pairs r !! k.
Proof.
  destruct (prices (index (pairs r) a)) as [buf|] eqn:Hbuf.
  - assert (Hstore : forall p, sameRegistry r (store r a p))
      by (intros p; exact (sameRegistry_store r a buf p Hbuf)).
    relay_paths; cbn [fst]; rewrite ?store_store;
      (split; [first [apply Hstore | apply sameRegistry_refl]|]);
      intros k Hk; rewrite ?(lookup_store_ne _ _ _ _ Hk); reflexivity.
  - unfold relay. rewrite Hbuf. cbn.
    split; [apply sameRegistry_refl | reflexivity].
Qed.

(** [relay] changes nothing but the buffer of the pair it is called for:
    no pair is added or removed, no setting and no contract handle is
    changed, and the pairs under the other keys are untouched. *)
Theorem relay_changes_only_the_buffer
        (clk : Clock) (r : Relayer) (a : string) :
  sameRegistry r (fst (fst (relay Prices_Truncate Prices_Median clk r a)))
  /\ forall k : string,
      k <> a ->
      pairs (fst (fst (relay Prices_Truncate Prices_Median clk r a))) !! k
      = pairs r !! k.
Proof.
  destruct (prices (index (pairs r) a)) as [buf|] eqn:Hbuf.
  - assert (Hstore : forall p, sameRegistry r (store r a p))
      by (intros p; exact (sameRegistry_store r a buf p Hbuf)).
    relay_paths; cbn [fst]; rewrite ?store_store;
      (split; [first [apply Hstore | apply sameRegistry_refl]|]);
      intros k Hk; rewrite ?(lookup_store_ne _ _ _ _ Hk); reflexivity.
  - unfold relay. rewrite Hbuf. cbn.
    split; [apply sameRegistry_refl | reflexivity].
Qed.

(** The remote calls of one [relay] are made in the order age, quorum,
    price, submission, each only after the ones before it; a submission
    is made at most once, and once it is made (whatever its answer) the
    buffer of the pair is empty. *)
Theorem relay_calls_in_order (clk : Clock) (r : Relayer) (a : string) :
  exists values : list oracle.Price,
    snd (fst (relay Prices_Truncate Prices_Median clk r a))
      `prefix_of` [CallAge; CallBar; CallPrice; CallPoke values]
    /\ (forall sent : list oracle.Price,
          In (CallPoke sent)
             (snd (fst (relay Prices_Truncate Prices_Median clk r a))) ->
          snd (fst (relay Prices_Truncate Prices_Median clk r a))
          = [CallAge; CallBar; CallPrice; CallPoke sent]
          /\ bufferLen (fst (fst (relay Prices_Truncate Prices_Median
                                        clk r a))) a = Some 0).
Proof.
  relay_paths; cbn [fst snd];
    try (exists []; split;
         [ first [ now exists [CallAge; CallBar; CallPrice; CallPoke []]
                 | now exists [CallBar; CallPrice; CallPoke []]
                 | now exists [CallPrice; CallPoke []]
                 | now exists [CallPoke []] ]
         | intros sent Hin; cbn in Hin; intuition discriminate ]).
  all: eexists; split; [now exists []|];
    intros sent [H|[H|[H|[H|[]]]]]; try discriminate H;
    injection H as <-; split; [reflexivity|];
    unfold bufferLen; now rewrite prices_store.
Qed.

Lemma relay_ok_inversion
        (clk : Clock) (r r' : Relayer) (a : string) (calls : list call) :
  relay Prices_Truncate Prices_Median clk r a = (r', calls, Ok tt) ->
  exists (median : oracle.Median) (values : list oracle.Price),
    Median (index (pairs r) a) = Some median
    /\ oracle.Poke median values = Reply tt
    /\ calls = [CallAge; CallBar; CallPrice; CallPoke values]
    /\ bufferLen r' a = Some 0.
Proof.
  relay_paths; intros [= <- <-]; try discriminate.
  eexists. eexists. split; [reflexivity|].
  split; [match goal with H : oracle.Poke _ _ = Reply ?u |- _ =>
                            destruct u; exact H end|].
  split; [reflexivity|]. unfold bufferLen. now rewrite prices_store.
Qed.

(** [relay] returns nil only after a submission that the contract
    accepted: the four calls were made, and the buffer is empty. *)
Theorem relay_success_means_submitted
        (clk : Clock) (r r' : Relayer) (a : string) (calls : list call) :
  relay Prices_Truncate Prices_Median clk r a = (r', calls, Ok tt) ->
  exists (median : oracle.Median) (values : list oracle.Price),
    Median (index (pairs r) a) = Some median
    /\ oracle.Poke median values = Reply tt
    /\ calls = [CallAge; CallBar; CallPrice; CallPoke values]
    /\ bufferLen r' a = Some 0.
Proof.
  relay_paths; intros [= <- <-]; try discriminate.
  eexists. eexists. split; [reflexivity|].
  split; [match goal with H : oracle.Poke _ _ = Reply ?u |- _ =>
                            destruct u; exact H end|].
  split; [reflexivity|]. unfold bufferLen. now rewrite prices_store.
Qed.

(** A failed age or quorum query ends [relay] with the contract's error
    and without a submission; the buffer has by then lost its expired
    readings and nothing else. *)
Theorem relay_query_failure
        (clk : Clock) (r : Relayer) (a : string) (pair : Pair) (buf : Prices)
        (median : oracle.Median) (msg : string) :
  pairs r !! a = Some pair ->
  prices pair = Some buf ->
  Median pair = Some median ->
  oracle.MAge median = Failure msg
  \/ (exists oracleTime : Z,
         oracle.MAge median = Reply oracleTime
         /\ oracleTime + OracleExpiration pair <= gateTime clk
         /\ oracle.Bar median = Failure msg) ->
  exists calls : list call,
    relay Prices_Truncate Prices_Median clk r a
    = (store r a (Prices_ClearExpired (clearTime clk) buf), calls,
       Err (Remote msg))
    /\ forallb (fun c => negb (is_poke c)) calls = true.
Proof.
  intros Hpair Hbuf Hmed Hfail.
  rewrite (relay_unfold Prices_Truncate Prices_Median
             clk r a pair buf median Hpair Hbuf Hmed).
  cbn zeta. destruct Hfail as [Hage|(oracleTime & Hage & Hexp & Hbar)].
  - rewrite Hage. eexists. split; reflexivity.
  - rewrite Hage.
    destruct (Z.ltb_spec (gateTime clk) (oracleTime + OracleExpiration pair));
      [lia|].
    rewrite Hbar. eexists. split; reflexivity.
Qed.

(** A failed price query comes after [Truncate]: [relay] returns the
    contract's error without a submission, but the buffer has already been
    cut to the quorum. *)
Theorem relay_price_failure_after_truncate
        (clk : Clock) (r : Relayer) (a : string) (pair : Pair) (buf : Prices)
        (median : oracle.Median) (oracleTime quorum medianPrice : Z)
        (msg : string) :
  pairs r !! a = Some pair ->
  prices pair = Some buf ->
  Median pair = Some median ->
  oracle.MAge median = Reply oracleTime ->
  oracleTime + OracleExpiration pair <= gateTime clk ->
  oracle.Bar median = Reply quorum ->
  quorum <= Prices_Len (Prices_ClearExpired (clearTime clk) buf) ->
  Prices_Median
    (Prices_Truncate quorum (Prices_ClearExpired (clearTime clk) buf))
  = Some medianPrice ->
  oracle.MPrice median = Failure msg ->
  relay Prices_Truncate Prices_Median clk r a
  = (store r a
       (Prices_Truncate quorum (Prices_ClearExpired (clearTime clk) buf)),
     [CallAge; CallBar; CallPrice], Err (Remote msg)).
Proof.
  intros Hpair Hbuf Hmed Hage Hexp Hbar Hlen Hmedian Hprice.
  rewrite (relay_unfold Prices_Truncate Prices_Median
             clk r a pair buf median Hpair Hbuf Hmed).
  cbn zeta. rewrite Hage.
  destruct (Z.ltb_spec (gateTime clk) (oracleTime + OracleExpiration pair));
    [lia|].
  rewrite Hbar.
  destruct (Z.ltb_spec (Prices_Len (Prices_ClearExpired (clearTime clk) buf))
                       quorum); [lia|].
  now rewrite Hmedian, Hprice.
Qed.


(** ** The tick *)

Lemma rangePairs_sameRegistry (clk : string -> Clock)
      (onSuccessChan onErrChan : bool) (keys : list string) (r : Relayer) :
  sameRegistry r
    (fst (fst (rangePairs Prices_Truncate Prices_Median clk
                          onSuccessChan onErrChan keys r))).
Proof.
  revert r. induction keys as [|k keys IH]; intros r; cbn [rangePairs].
  - apply sameRegistry_refl.
  - destruct (prices (index (pairs r) k)) as [buf|];
      [|apply sameRegistry_refl].
    destruct (Prices_Len buf =? 0); [apply IH|].
    pose proof (relay_frame (clk k) r k) as [Hrelay _].
    destruct (relay _ _ _ r k) as [[r1 calls] res]. cbn [fst] in Hrelay.
    specialize (IH r1).
    destruct res as [u|err|msg]; [| |exact Hrelay];
      destruct (rangePairs _ _ _ _ _ keys r1) as [[r2 rest] crashed];
      cbn [fst] in *; exact (sameRegistry_trans _ _ _ Hrelay IH).
Qed.

Lemma tick_frame (clk : string -> Clock)
        (onSuccessChan onErrChan : bool) (r : Relayer) :
  sameRegistry r
    (fst (tick Prices_Truncate Prices_Median clk onSuccessChan onErrChan r)).
Proof.
  unfold tick, tickOver.
  pose proof (rangePairs_sameRegistry clk onSuccessChan onErrChan
                (map fst (map_to_list (pairs r))) r) as H.
  destruct (rangePairs _ _ _ _ _ _ r) as [[r1 evs] crashed]. exact H.
Qed.

(** A tick changes nothing but price buffers: the same pairs are
    registered afterwards, with the same settings and contract handles. *)
Theorem tick_changes_only_buffers (clk : string -> Clock)
        (onSuccessChan onErrChan : bool) (r : Relayer) :
  sameRegistry r
    (fst (tick Prices_Truncate Prices_Median clk onSuccessChan onErrChan r)).
Proof.
  unfold tick, tickOver.
  pose proof (rangePairs_sameRegistry clk onSuccessChan onErrChan
                (map fst (map_to_list (pairs r))) r) as H.
  destruct (rangePairs _ _ _ _ _ _ r) as [[r1 evs] crashed]. exact H.
Qed.

Lemma rangePairs_skips_empty (clk : string -> Clock)
      (onSuccessChan onErrChan : bool) (keys : list string) (r : Relayer) :
  (forall k, In k keys -> bufferLen r k = Some 0) ->
  rangePairs Prices_Truncate Prices_Median clk onSuccessChan onErrChan keys r
  = (r, [], false).
Proof.
  induction keys as [|k keys IH]; intros Hempty; cbn [rangePairs];
    [reflexivity|].
  pose proof (Hempty k (or_introl eq_refl)) as Hk. unfold bufferLen in Hk.
  destruct (prices (index (pairs r) k)) as [buf|]; [|discriminate Hk].
  injection Hk as ->. cbn. apply IH. intros k' Hk'. apply Hempty. now right.
Qed.

(** A tick over an engine in which every registered pair has an empty
    buffer makes no remote call and sends nothing: it takes the mutex and
    releases it, and the engine is unchanged. *)
Theorem tick_skips_empty_buffers (clk : string -> Clock)
        (onSuccessChan onErrChan : bool) (r : Relayer) :
  (forall (k : string) (pair : Pair),
      pairs r !! k = Some pair ->
      exists buf, prices pair = Some buf /\ Prices_Len buf = 0) ->
  tick Prices_Truncate Prices_Median clk onSuccessChan onErrChan r
  = (r, [EvLock; EvUnlock]).
Proof.
  intros Hempty. unfold tick, tickOver.
  rewrite rangePairs_skips_empty; [reflexivity|].
  intros k Hk. apply in_map_iff in Hk. destruct Hk as ([k' pair] & <- & Hin).
  apply list_elem_of_In, elem_of_map_to_list in Hin. cbn.
  destruct (Hempty k' pair Hin) as (buf & Hbuf & Hlen).
  unfold bufferLen. now rewrite (index_lookup _ _ _ Hin), Hbuf, Hlen.
Qed.

Lemma rangePairs_sends (clk : string -> Clock)
      (onSuccessChan onErrChan : bool) (keys : list string) (r : Relayer) :
  (forall a : string,
      In (EvSendSuccess a)
         (snd (fst (rangePairs Prices_Truncate Prices_Median clk
                               onSuccessChan onErrChan keys r))) ->
      onSuccessChan = true
      /\ exists values,
          In (EvCall a (CallPoke values))
             (snd (fst (rangePairs Prices_Truncate Prices_Median clk
                                   onSuccessChan onErrChan keys r))))
  /\ (forall err : error,
        In (EvSendErr err)
           (snd (fst (rangePairs Prices_Truncate Prices_Median clk
                                 onSuccessChan onErrChan keys r))) ->
        onErrChan = true).
Proof.
  revert r. induction keys as [|k keys IH]; intros r; cbn [rangePairs].
  - split; intros ? [].
  - destruct (prices (index (pairs r) k)) as [buf|]; [|split; intros ? []].
    destruct (Prices_Len buf =? 0); [apply IH|].
    destruct (relay _ _ _ r k) as [[r1 calls] res] eqn:Hrelay.
    assert (Hcalls : forall e, In e (map (EvCall k) calls) -> isSend e = false).
    { intros e He. apply in_map_iff in He. now destruct He as (c & <- & _). }
    specialize (IH r1).
    destruct res as [[]|err|msg].
    + destruct (rangePairs _ _ _ _ _ keys r1) as [[r2 rest] crashed].
      cbn [fst snd] in *. destruct IH as [IHs IHe].
      apply relay_ok_inversion in Hrelay.
      destruct Hrelay as (median & values & _ & _ & -> & _).
      split.
      * intros a Ha. apply in_app_or in Ha. destruct Ha as [Ha|Ha].
        { apply Hcalls in Ha. discriminate Ha. }
        apply in_app_or in Ha. destruct Ha as [Ha|Ha].
        { destruct onSuccessChan; [|destruct Ha].
          destruct Ha as [[= <-]|[]]. split; [reflexivity|].
          exists values. apply in_or_app. left. cbn. tauto. }
        destruct (IHs a Ha) as [Hch (sent & Hsent)]. split; [exact Hch|].
        exists sent. apply in_or_app. right. apply in_or_app. now right.
      * intros e He. apply in_app_or in He. destruct He as [He|He].
        { apply Hcalls in He. discriminate He. }
        apply in_app_or in He. destruct He as [He|He].
        { destruct onSuccessChan; [|destruct He].
          destruct He as [He|[]]. discriminate He. }
        exact (IHe e He).
    + destruct (rangePairs _ _ _ _ _ keys r1) as [[r2 rest] crashed].
      cbn [fst snd] in *. destruct IH as [IHs IHe]. split.
      * intros a Ha. apply in_app_or in Ha. destruct Ha as [Ha|Ha].
        { apply Hcalls in Ha. discriminate Ha. }
        apply in_app_or in Ha. destruct Ha as [Ha|Ha].
        { destruct onErrChan; [|destruct Ha].
          destruct Ha as [Ha|[]]. discriminate Ha. }
        destruct (IHs a Ha) as [Hch (sent & Hsent)]. split; [exact Hch|].
        exists sent. apply in_or_app. right. apply in_or_app. now right.
      * intros e He. apply in_app_or in He. destruct He as [He|He].
        { apply Hcalls in He. discriminate He. }
        apply in_app_or in He. destruct He as [He|He].
        { now destruct onErrChan. }
        exact (IHe e He).
    + cbn [fst snd]. split.
      * intros a Ha. apply Hcalls in Ha. discriminate Ha.
      * intros e He. apply Hcalls in He. discriminate He.
Qed.

(** What a tick reports: an asset pair is sent on the success channel only
    if that channel is not nil and a submission for that pair was made in
    the same tick; an error is sent only if the error channel is not nil. *)
Theorem tick_reports (clk : string -> Clock)
        (onSuccessChan onErrChan : bool) (r : Relayer) :
  (forall a : string,
      In (EvSendSuccess a)
         (snd (tick Prices_Truncate Prices_Median clk
                    onSuccessChan onErrChan r)) ->
      onSuccessChan = true
      /\ exists values,
          In (EvCall a (CallPoke values))
             (snd (tick Prices_Truncate Prices_Median clk
                        onSuccessChan onErrChan r)))
  /\ (forall err : error,
        In (EvSendErr err)
           (snd (tick Prices_Truncate Prices_Median clk
                      onSuccessChan onErrChan r)) ->
        onErrChan = true).
Proof.
  unfold tick, tickOver.
  pose proof (rangePairs_sends clk onSuccessChan onErrChan
                (map fst (map_to_list (pairs r))) r) as [Hs He].
  destruct (rangePairs _ _ _ _ _ _ r) as [[r1 evs] crashed].
  cbn [fst snd] in *. split.
  - intros a [Ha|Ha]; [discriminate Ha|].
    apply in_app_or in Ha. destruct Ha as [Ha|Ha].
    + destruct (Hs a Ha) as [Hch (values & Hv)]. split; [exact Hch|].
      exists values. right. apply in_or_app. now left.
    + destruct crashed; [destruct Ha|]. destruct Ha as [Ha|[]]. discriminate Ha.
  - intros e [Ha|Ha]; [discriminate Ha|].
    apply in_app_or in Ha. destruct Ha as [Ha|Ha]; [exact (He e Ha)|].
    destruct crashed; [destruct Ha|]. destruct Ha as [Ha|[]]. discriminate Ha.
Qed.

Lemma rangePairs_nil_contract (clk : string -> Clock)
      (onSuccessChan onErrChan : bool) (a : string) (pair : Pair)
      (buf : Prices) (keys : list string) (r : Relayer) :
  In a keys ->
  pairs r !! a = Some pair ->
  prices pair = Some buf ->
  Prices_Len buf <> 0 ->
  Median pair = None ->
  snd (rangePairs Prices_Truncate Prices_Median clk
                  onSuccessChan onErrChan keys r) = true.
Proof.
  intros Hin Hpair Hbuf Hlen Hmed. revert r Hpair.
  induction keys as [|k keys IH]; intros r Hpair; [destruct Hin|].
  cbn [rangePairs].
  destruct (decide (k = a)) as [->|Hk].
  - rewrite (index_lookup _ _ _ Hpair), Hbuf.
    destruct (Z.eqb_spec (Prices_Len buf) 0) as [E|_]; [contradiction|].
    unfold relay. now rewrite (index_lookup _ _ _ Hpair), Hbuf, Hmed.
  - assert (Hin' : In a keys) by (destruct Hin; [congruence|assumption]).
    destruct (prices (index (pairs r) k)) as [bufk|]; [|reflexivity].
    destruct (Prices_Len bufk =? 0); [exact (IH Hin' r Hpair)|].
    pose proof (relay_frame (clk k) r k) as [_ Hframe].
    destruct (relay _ _ _ r k) as [[r1 calls] res]. cbn [fst] in Hframe.
    assert (Hpair1 : pairs r1 !! a = Some pair)
      by (rewrite Hframe; [exact Hpair | congruence]).
    specialize (IH Hin' r1 Hpair1).
    destruct res as [u|err|msg]; [| |reflexivity];
      destruct (rangePairs _ _ _ _ _ keys r1) as [[r2 rest] crashed];
      exact IH.
Qed.

(** A pair registered without a contract handle ([Median] nil) makes the
    tick panic as soon as that pair has a reading: the tick never reaches
    the release of the mutex. *)
Theorem tick_panics_on_nil_contract (clk : string -> Clock)
        (onSuccessChan onErrChan : bool) (r : Relayer) (a : string)
        (pair : Pair) (buf : Prices) :
  pairs r !! a = Some pair ->
  prices pair = Some buf ->
  Prices_Len buf <> 0 ->
  Median pair = None ->
  ~ In EvUnlock
       (snd (tick Prices_Truncate Prices_Median clk
                  onSuccessChan onErrChan r)).
Proof.
  intros Hpair Hbuf Hlen Hmed. unfold tick, tickOver.
  assert (Hin : In a (map fst (map_to_list (pairs r)))).
  { apply in_map_iff. exists (a, pair). split; [reflexivity|].
    now apply list_elem_of_In, elem_of_map_to_list. }
  pose proof (rangePairs_nil_contract clk onSuccessChan onErrChan a pair buf
                _ r Hin Hpair Hbuf Hlen Hmed) as Hcrash.
  pose proof (rangePairs_no_locking Prices_Truncate Prices_Median clk
                onSuccessChan onErrChan
                (map fst (map_to_list (pairs r))) r) as Hbody.
  destruct (rangePairs _ _ _ _ _ _ r) as [[r1 evs] crashed].
  cbn [fst snd] in *. subst crashed. rewrite app_nil_r.
  intros [H|H]; [discriminate H|].
  rewrite forallb_forall in Hbody. specialize (Hbody _ H). discriminate Hbody.
Qed.

Lemma wellFormed_sameRegistry (r r' : Relayer) :
  sameRegistry r r' -> wellFormed r -> wellFormed r'.
Proof.
  intros [_ Hsame] Hwf k p' Hp'. specialize (Hsame k). rewrite Hp' in Hsame.
  destruct (pairs r !! k) as [p|] eqn:Hp; [|contradiction].
  destruct Hsame as [(Hname & _) Hnil]. destruct (Hwf k p Hp) as [Hk Hbuf].
  split; [congruence|]. intros Hnone. apply Hbuf. now apply Hnil.
Qed.

(** The invariant of the engine: starting from [NewRelayer], every
    operation keeps each registered pair stored under its own asset pair
    and with a buffer, so the buffer pointer of a registered pair is never
    nil. *)
Theorem wellFormed_invariant :
  (forall interval : Z, wellFormed (NewRelayer interval))
  /\ (forall (r : Relayer) (pair : Pair),
        wellFormed r -> wellFormed (AddPair r pair))
  /\ (forall (r : Relayer) (price : oracle.Price),
        wellFormed r -> wellFormed (fst (Collect r price)))
  /\ (forall (clk : Clock) (r : Relayer) (a : string),
        wellFormed r ->
        wellFormed (fst (fst (relay Prices_Truncate Prices_Median clk r a))))
  /\ (forall (clk : string -> Clock) (onSuccessChan onErrChan : bool)
             (r : Relayer),
        wellFormed r ->
        wellFormed (fst (tick Prices_Truncate Prices_Median clk
                              onSuccessChan onErrChan r))).
Proof.
  split; [intros interval k p H; cbn in H; now rewrite lookup_empty in H|].
  split.
  { intros r pair Hwf k p. unfold AddPair. cbn.
    destruct (decide (k = AssetPair pair)) as [->|Hk].
    - rewrite lookup_insert_eq. intros [= <-]. cbn. split; [reflexivity|easy].
    - rewrite lookup_insert_ne by congruence. apply Hwf. }
  split.
  { intros r price Hwf. unfold Collect.
    destruct (oracle.Val price =? 0); [exact Hwf|].
    destruct (prices (index (pairs r) (oracle.AssetPair price)))
      as [buf|] eqn:Hbuf; [|exact Hwf].
    destruct (Prices_Add buf price) as [buf' [err|]]; [exact Hwf|].
    cbn [fst].
    exact (wellFormed_sameRegistry _ _ (sameRegistry_store _ _ _ _ Hbuf) Hwf). }
  split.
  { intros clk r a.
    apply wellFormed_sameRegistry, relay_frame. }
  intros clk onSuccessChan onErrChan r.
  apply wellFormed_sameRegistry, tick_frame.
Qed.

End EngineMore.

(** Three readings of 105 against an on-chain price of 100: the transition
    returns nil, and it has submitted. *)
Lemma relay_success_means_submitted_witness :
  exists (median : oracle.Median) (values : list oracle.Price),
    Median (index (pairs (testRelayer (testPair 2 (testMedian 100 (Reply tt)))
                            [(105, 1900); (105, 1900); (105, 1900)])) ETHUSD)
    = Some median
    /\ oracle.Poke median values = Reply tt
    /\ [CallAge; CallBar; CallPrice;
        CallPoke (readings
                    (testPrices [(105, 1900); (105, 1900); (105, 1900)]))]
       = [CallAge; CallBar; CallPrice; CallPoke values]
    /\ bufferLen
         (fst (fst (relay specTruncate specMedian (mkClock 2000 2000)
                      (testRelayer (testPair 2 (testMedian 100 (Reply tt)))
                                   [(105, 1900); (105, 1900); (105, 1900)])
                      ETHUSD)))
         ETHUSD = Some 0.
Proof.
  apply (relay_success_means_submitted specTruncate specMedian
           (mkClock 2000 2000)
           (testRelayer (testPair 2 (testMedian 100 (Reply tt)))
                        [(105, 1900); (105, 1900); (105, 1900)])).
  vm_compute. reflexivity.
Defined.

(** The age query fails: its error comes back, the reading stays. *)
Lemma relay_query_failure_witness :
  exists calls : list call,
    relay specTruncate specMedian (mkClock 2000 2000)
          (testRelayer
             (testPair 2 (testContract (Failure "timeout") (Reply 3)
                                       (Reply 100) (Reply tt)))
             [(105, 1900)])
          ETHUSD
    = (store (testRelayer
                (testPair 2 (testContract (Failure "timeout") (Reply 3)
                                          (Reply 100) (Reply tt)))
                [(105, 1900)])
             ETHUSD (Prices_ClearExpired 2000 (testPrices [(105, 1900)])),
       calls, Err (Remote "timeout"))
    /\ forallb (fun c => negb (is_poke c)) calls = true.
Proof.
  apply (relay_query_failure specTruncate specMedian (mkClock 2000 2000)
           (testRelayer
              (testPair 2 (testContract (Failure "timeout") (Reply 3)
                                        (Reply 100) (Reply tt)))
              [(105, 1900)])
           ETHUSD
           (with_prices
              (testPair 2 (testContract (Failure "timeout") (Reply 3)
                                        (Reply 100) (Reply tt)))
              (testPrices [(105, 1900)]))
           (testPrices [(105, 1900)])
           (testContract (Failure "timeout") (Reply 3) (Reply 100) (Reply tt))
           "timeout"); try side.
  left. reflexivity.
Defined.

(** Three readings, quorum 2, the price query fails: two readings are
    left in the buffer and nothing was submitted. *)
Lemma relay_price_failure_after_truncate_witness :
  relay specTruncate specMedian (mkClock 2000 2000)
        (testRelayer
           (testPair 2 (testContract (Reply 1000) (Reply 2)
                                     (Failure "timeout") (Reply tt)))
           [(104, 1900); (105, 1900); (109, 1900)])
        ETHUSD
  = (store (testRelayer
              (testPair 2 (testContract (Reply 1000) (Reply 2)
                                        (Failure "timeout") (Reply tt)))
              [(104, 1900); (105, 1900); (109, 1900)])
           ETHUSD (testPrices [(105, 1900); (104, 1900)]),
     [CallAge; CallBar; CallPrice], Err (Remote "timeout")).
Proof.
  apply (relay_price_failure_after_truncate specTruncate specMedian
           (mkClock 2000 2000)
           (testRelayer
              (testPair 2 (testContract (Reply 1000) (Reply 2)
                                        (Failure "timeout") (Reply tt)))
              [(104, 1900); (105, 1900); (109, 1900)])
           ETHUSD
           (with_prices
              (testPair 2 (testContract (Reply 1000) (Reply 2)
                                        (Failure "timeout") (Reply tt)))
              (testPrices [(104, 1900); (105, 1900); (109, 1900)]))
           (testPrices [(104, 1900); (105, 1900); (109, 1900)])
           (testContract (Reply 1000) (Reply 2) (Failure "timeout") (Reply tt))
           1000 2 104 "timeout"); side.
Defined.


(** An engine whose only pair has no reading yet. *)
Lemma tick_skips_empty_buffers_witness :
  tick specTruncate specMedian (fun _ => mkClock 2000 2000) true true
       (AddPair (NewRelayer 1) (testPair 2 (testMedian 100 (Reply tt))))
  = (AddPair (NewRelayer 1) (testPair 2 (testMedian 100 (Reply tt))),
     [EvLock; EvUnlock]).
Proof.
  apply (tick_skips_empty_buffers specTruncate specMedian
           (fun _ => mkClock 2000 2000) true true
           (AddPair (NewRelayer 1) (testPair 2 (testMedian 100 (Reply tt))))).
  intros k pair. unfold AddPair, NewRelayer. cbn [pairs interval].
  intros Hk. apply lookup_insert_Some in Hk.
  destruct Hk as [[_ <-]|[_ Hk]]; [|now rewrite lookup_empty in Hk].
  eexists. split; reflexivity.
Defined.

(** ETHUSD registered without a contract, one reading collected. *)
Lemma tick_panics_on_nil_contract_witness :
  ~ In EvUnlock
       (snd (tick specTruncate specMedian (fun _ => mkClock 2000 2000)
                  true true
                  (testRelayer (mkPair ETHUSD 2 60 300 None None)
                               [(105, 1900)]))).
Proof.
  apply (tick_panics_on_nil_contract specTruncate specMedian
           (fun _ => mkClock 2000 2000) true true
           (testRelayer (mkPair ETHUSD 2 60 300 None None) [(105, 1900)])
           ETHUSD
           (with_prices (mkPair ETHUSD 2 60 300 None None)
                        (testPrices [(105, 1900)]))
           (testPrices [(105, 1900)])); side.
Defined.

(** * Properties of the listings *)

(** Go compares strings byte by byte: [String.ltb], with [String.leb] as
    its negation the other way round. *)
Lemma string_ltb_leb (a b : string) :
  String.ltb a b = negb (String.leb b a).
Proof.
  unfold String.ltb, String.leb. rewrite (String.compare_antisym a b).
  now destruct (String.compare b a).
Qed.

Lemma string_leb_refl (a : string) : String.leb a a = true.
Proof. now destruct (String.leb_total a a). Qed.

Lemma string_leb_trans (a b c : string) :
  String.leb a b = true -> String.leb b c = true -> String.leb a c = true.
Proof.
  unfold String.leb.
  destruct (String.compare a b) eqn:Eab; [| |discriminate].
  - apply String.compare_eq_iff in Eab. now subst.
  - destruct (String.compare b c) eqn:Ebc; [| |discriminate].
    + apply String.compare_eq_iff in Ebc. subst. now rewrite Eab.
    + intros _ _.
      apply OrderedTypeEx.String_as_OT.cmp_lt in Eab.
      apply OrderedTypeEx.String_as_OT.cmp_lt in Ebc.
      pose proof (OrderedTypeEx.String_as_OT.lt_trans _ _ _ Eab Ebc) as Eac.
      apply OrderedTypeEx.String_as_OT.cmp_lt in Eac.
      unfold OrderedTypeEx.String_as_OT.cmp in Eac. now rewrite Eac.
Qed.

Section StableSort.

Context {A : Type} (key : A -> string).

Lemma insertStable_perm (less : A -> A -> bool) (x : A) (l : list A) :
  Permutation (insertStable less x l) (x :: l).
Proof.
  induction l as [|y l IH]; cbn; [reflexivity|].
  destruct (less y x); [|reflexivity].
  rewrite IH. apply perm_swap.
Qed.

Lemma SliceStable_perm (less : A -> A -> bool) (l : list A) :
  Permutation (SliceStable less l) l.
Proof.
  induction l as [|x l IH]; cbn; [reflexivity|].
  rewrite insertStable_perm. now constructor.
Qed.

Lemma insertStable_sorted (x : A) (l : list A) :
  Sorted.StronglySorted (fun a b => String.leb (key a) (key b) = true) l ->
  Sorted.StronglySorted (fun a b => String.leb (key a) (key b) = true)
                 (insertStable (fun a b => String.ltb (key a) (key b)) x l).
Proof.
  induction 1 as [|y l Hsorted IH Hy]; cbn.
  - repeat constructor.
  - rewrite string_ltb_leb.
    destruct (String.leb (key x) (key y)) eqn:Exy; cbn.
    + constructor; [now constructor|]. constructor; [exact Exy|].
      eapply Forall_impl; [exact Hy|]. cbn. intros z Hz.
      exact (string_leb_trans _ _ _ Exy Hz).
    + constructor; [exact IH|].
      assert (Hyx : String.leb (key y) (key x) = true).
      { destruct (String.leb_total (key x) (key y)) as [H|H]; [|exact H].
        congruence. }
      rewrite (insertStable_perm _ x l). now constructor.
Qed.

Lemma SliceStable_sorted (l : list A) :
  Sorted.StronglySorted (fun a b => String.leb (key a) (key b) = true)
                 (SliceStable (fun a b => String.ltb (key a) (key b)) l).
Proof.
  induction l as [|x l IH]; cbn; [constructor|].
  now apply insertStable_sorted.
Qed.

Lemma insertStable_stable (k : string) (x : A) (l : list A) :
  List.filter (fun a => String.eqb (key a) k)
              (insertStable (fun a b => String.ltb (key a) (key b)) x l)
  = List.filter (fun a => String.eqb (key a) k) (x :: l).
Proof.
  induction l as [|y l IH]; [reflexivity|]. cbn [insertStable].
  destruct (String.ltb (key y) (key x)) eqn:Eyx; [|reflexivity].
  cbn [List.filter] in *. rewrite IH.
  destruct (String.eqb_spec (key y) k) as [Ey|_]; [|reflexivity].
  destruct (String.eqb_spec (key x) k) as [Ex|_]; [|reflexivity].
  exfalso. rewrite Ey, <- Ex in Eyx. rewrite string_ltb_leb in Eyx.
  now rewrite string_leb_refl in Eyx.
Qed.

Lemma SliceStable_stable (k : string) (l : list A) :
  List.filter (fun a => String.eqb (key a) k)
              (SliceStable (fun a b => String.ltb (key a) (key b)) l)
  = List.filter (fun a => String.eqb (key a) k) l.
Proof.
  induction l as [|x l IH]; [reflexivity|].
  cbn [SliceStable fold_right]. rewrite insertStable_stable.
  cbn [List.filter]. unfold SliceStable in IH. now rewrite IH.
Qed.

End StableSort.

Module CliFacts.

Import cli.

Section ListingFacts.

Variable Pair_String : Pair -> string.
Variable Aggregator : Type.
Variable AggregatorPair : Aggregator -> Pair.
Variable PriceModels : Type.
Variable rangeValues : PriceModels -> list Aggregator.
Variable graph_Pairs : PriceModels -> list string -> error + list Pair.
Variable PriceModels_Origins :
  PriceModels -> list Pair -> error + gmap Pair (list string).
Variable Writer : Type.
Variable Write : Writer -> item Aggregator -> Writer * option error.
Variable sort_Slice : (Pair -> Pair -> bool) -> list Pair -> list Pair.

Lemma writeAll_success (items : list (item Aggregator)) (m m' : Writer)
      (written : list (item Aggregator)) :
  writeAll Write m items = (m', written, None) -> written = items.
Proof.
  revert m m' written. induction items as [|x items IH];
    intros m m' written; cbn.
  - now intros [= <- <-].
  - destruct (Write m x) as [m1 [err|]]; [intros H; discriminate H|].
    destruct (writeAll Write m1 items) as [[m2 w2] e2] eqn:E.
    intros [= <- <- ->]. f_equal. exact (IH _ _ _ E).
Qed.

Lemma writeAll_failure (items : list (item Aggregator)) (m m' : Writer)
      (written : list (item Aggregator)) (err : error) :
  writeAll Write m items = (m', written, Some err) ->
  exists (before after : list (item Aggregator)) (x : item Aggregator)
         (m0 : Writer),
    items = before ++ x :: after
    /\ writeAll Write m before = (m0, before, None)
    /\ Write m0 x = (m', Some err)
    /\ written = before ++ [x].
Proof.
  revert m m' written. induction items as [|x items IH];
    intros m m' written; cbn.
  - intros H. discriminate H.
  - destruct (Write m x) as [m1 [e|]] eqn:Ex.
    + intros [= <- <- <-]. exists [], items, x, m. now repeat split.
    + destruct (writeAll Write m1 items) as [[m2 w2] e2] eqn:E.
      intros [= <- <- ->].
      destruct (IH _ _ _ E) as (before & after & y & m0 & -> & Hb & Hy & ->).
      exists (x :: before), after, y, m0. cbn. rewrite Ex, Hb.
      now repeat split.
Qed.

Lemma writeAll_prefix (items : list (item Aggregator)) (m : Writer) :
  snd (fst (writeAll Write m items)) `prefix_of` items.
Proof.
  destruct (writeAll Write m items) as [[m' written] [err|]] eqn:E; cbn.
  - destruct (writeAll_failure _ _ _ _ _ E)
      as (before & after & x & m0 & -> & _ & _ & ->).
    exists after. now rewrite <- app_assoc.
  - rewrite (writeAll_success _ _ _ _ E). exists []. now rewrite app_nil_r.
Qed.

(** [Pairs] hands the aggregators to the writer in ascending order of the
    string form of their pair, aggregators with the same string in the
    order the range over the price models gave them; when no [Write] fails
    every aggregator is written exactly once and nil is returned,
    otherwise what was written is an initial part of that list. *)
Theorem Pairs_lists_in_string_order (l : PriceModels) (m : Writer) :
  exists sorted : list Aggregator,
    Permutation sorted (rangeValues l)
    /\ Sorted.StronglySorted
         (fun g g' => String.leb (Pair_String (AggregatorPair g))
                                 (Pair_String (AggregatorPair g')) = true)
         sorted
    /\ (forall k : string,
          List.filter
            (fun g => String.eqb (Pair_String (AggregatorPair g)) k) sorted
          = List.filter
              (fun g => String.eqb (Pair_String (AggregatorPair g)) k)
              (rangeValues l))
    /\ snd (fst (Pairs Pair_String AggregatorPair rangeValues Write l m))
         `prefix_of` map ItemGraph sorted
    /\ (snd (Pairs Pair_String AggregatorPair rangeValues Write l m) = None ->
        snd (fst (Pairs Pair_String AggregatorPair rangeValues Write l m))
        = map ItemGraph sorted).
Proof.
  exists (SliceStable (lessByString Pair_String AggregatorPair)
                      (rangeValues l)).
  split; [apply SliceStable_perm|].
  split; [exact (SliceStable_sorted
                   (fun g => Pair_String (AggregatorPair g)) (rangeValues l))|].
  split; [intros k;
          exact (SliceStable_stable
                   (fun g => Pair_String (AggregatorPair g)) k (rangeValues l))|].
  unfold Pairs. cbn zeta. split; [apply writeAll_prefix|].
  destruct (writeAll Write m _) as [[m' written] err] eqn:E. cbn.
  intros ->. exact (writeAll_success _ _ _ _ E).
Qed.

(** When a [Write] fails, [Pairs] returns that error at once: the failing
    item is the last one handed to the writer, all the items before it in
    the sorted order were written, and none after it. *)
Theorem Pairs_stops_at_failing_write (l : PriceModels) (m m' : Writer)
        (written : list (item Aggregator)) (err : error) :
  Pairs Pair_String AggregatorPair rangeValues Write l m
  = (m', written, Some err) ->
  exists (before after : list (item Aggregator)) (x : item Aggregator)
         (m0 : Writer),
    map ItemGraph
        (SliceStable (lessByString Pair_String AggregatorPair) (rangeValues l))
    = before ++ x :: after
    /\ writeAll Write m before = (m0, before, None)
    /\ Write m0 x = (m', Some err)
    /\ written = before ++ [x].
Proof.
  unfold Pairs. cbn zeta.
  generalize (map ItemGraph
                  (SliceStable (lessByString Pair_String AggregatorPair)
                               (rangeValues l))).
  intros items. revert m m' written.
  induction items as [|x items IH]; intros m m' written; cbn.
  - intros H. discriminate H.
  - destruct (Write m x) as [m1 [e|]] eqn:Ex.
    + intros [= <- <- <-]. exists [], items, x, m. now repeat split.
    + destruct (writeAll Write m1 items) as [[m2 w2] e2] eqn:E.
      intros [= <- <- ->].
      destruct (IH _ _ _ E) as (before & after & y & m0 & -> & Hb & Hy & ->).
      exists (x :: before), after, y, m0. cbn. rewrite Ex, Hb.
      now repeat split.
Qed.

(** When both lookups succeed and no [Write] fails, [Origins] writes one
    single-entry map per pair of the origins map, each pair exactly once
    and with its own origins, in the order [sortMapKeys] gives. *)
Theorem Origins_lists_every_pair (args : list string) (l : PriceModels)
        (m : Writer) (pairs : list Pair) (origins : gmap Pair (list string)) :
  (forall less keys, Permutation (sort_Slice less keys) keys) ->
  graph_Pairs l args = inr pairs ->
  PriceModels_Origins l pairs = inr origins ->
  snd (Origins Pair_String graph_Pairs PriceModels_Origins Write sort_Slice
               args l m) = None ->
  Permutation
    (snd (fst (Origins Pair_String graph_Pairs PriceModels_Origins Write
                       sort_Slice args l m)))
    (map (fun po : Pair * list string => ItemOrigins (fst po) (snd po))
         (map_to_list origins)).
Proof.
  intros Hperm Hpairs Horigins. unfold Origins. rewrite Hpairs, Horigins.
  destruct (writeAll Write m _) as [[m' written] err] eqn:E. cbn.
  intros ->. rewrite (writeAll_success _ _ _ _ E).
  unfold sortMapKeys. rewrite Hperm, map_map.
  apply Permutation_refl'. apply map_ext_in. intros [p os] Hin. cbn.
  apply list_elem_of_In, elem_of_map_to_list in Hin. now rewrite Hin.
Qed.

End ListingFacts.

(** Two pairs, a writer that refuses its second item: ETH/USD, which
    sorts after BTC/USD, is the item that fails, and nothing follows it. *)
Lemma Pairs_stops_at_failing_write_witness :
  exists (before after : list (item Pair)) (x : item Pair)
         (m0 : list (item Pair)),
    map ItemGraph
        (SliceStable
           (lessByString (fun p => (Base p ++ "/" ++ Quote p)%string) id)
           [("ETH", "USD"); ("BTC", "USD")])
    = before ++ x :: after
    /\ writeAll (logWrite 1) [] before = (m0, before, None)
    /\ logWrite 1 m0 x
       = ([ItemGraph ("BTC", "USD"); ItemGraph ("ETH", "USD")],
          Some (Remote "broken pipe"))
    /\ [ItemGraph ("BTC", "USD"); ItemGraph ("ETH", "USD")] = before ++ [x].
Proof.
  apply (Pairs_stops_at_failing_write
           (fun p => (Base p ++ "/" ++ Quote p)%string) Pair id
           (list Pair) id (list (item Pair)) (logWrite 1)
           [("ETH", "USD"); ("BTC", "USD")] []).
  vm_compute. reflexivity.
Defined.

(** One pair with one origin, a writer that accepts everything, the
    identity for [sort.Slice]. *)
Lemma Origins_lists_every_pair_witness :
  Permutation
    (snd (fst (Origins (fun p => (Base p ++ "/" ++ Quote p)%string)
                       (fun (_ : unit) _ => inr [])
                       (fun (_ : unit) _ =>
                          inr {[ ("BTC", "USD") := ["kraken"] ]})
                       (logWrite (A := Pair) 5) (fun _ keys => keys)
                       [] tt [])))
    (map (fun po : Pair * list string => ItemOrigins (fst po) (snd po))
         (map_to_list ({[ ("BTC", "USD") := ["kraken"] ]}
                       : gmap Pair (list string)))).
Proof.
  apply (Origins_lists_every_pair
           (fun p => (Base p ++ "/" ++ Quote p)%string) Pair unit
           (fun (_ : unit) _ => inr [])
           (fun (_ : unit) _ => inr {[ ("BTC", "USD") := ["kraken"] ]})
           (list (item Pair)) (logWrite (A := Pair) 5) (fun _ keys => keys)
           [] tt [] []
           ({[ ("BTC", "USD") := ["kraken"] ]} : gmap Pair (list string))).
  - intros less keys. reflexivity.
  - reflexivity.
  - reflexivity.
  - vm_compute. reflexivity.
Defined.

End CliFacts.

(** * Properties of the plain format *)

Module PlainFacts.

Import marshal.

Lemma string_app_assoc (a b c : string) :
  ((a ++ b) ++ c = a ++ (b ++ c))%string.
Proof.
  induction a as [|ch a IH]; [reflexivity|].
  change (String ch ((a ++ b) ++ c) = String ch (a ++ (b ++ c)))%string.
  now f_equal.
Qed.

Lemma string_length_app (a b : string) :
  String.length (a ++ b) = (String.length a + String.length b)%nat.
Proof.
  induction a as [|ch a IH]; [reflexivity|].
  change (S (String.length (a ++ b))
          = S (String.length a + String.length b)).
  now f_equal.
Qed.

Lemma concat_lines (x : string) (i : list string) :
  (String.concat newline (x :: i) ++ newline)%string
  = String.concat "" (map (fun s => (s ++ newline)%string) (x :: i)).
Proof.
  revert x. induction i as [|y i IH]; intros x.
  - reflexivity.
  - change (String.concat newline (x :: y :: i))
      with (x ++ newline ++ String.concat newline (y :: i))%string.
    change (String.concat "" (map (fun s => (s ++ newline)%string)
                                  (x :: y :: i)))
      with ((x ++ newline) ++ ""
            ++ String.concat "" (map (fun s => (s ++ newline)%string)
                                     (y :: i)))%string.
    rewrite <- IH.
    change ("" ++ String.concat newline (y :: i) ++ newline)%string
      with (String.concat newline (y :: i) ++ newline)%string.
    now rewrite !string_app_assoc.
Qed.

Lemma length_concat_empty (l : list string) :
  String.length (String.concat "" l) = list_sum (map String.length l).
Proof.
  induction l as [|y l IH]; [reflexivity|]. destruct l as [|z l].
  - change (String.length y = (String.length y + 0)%nat). lia.
  - change (String.concat "" (y :: z :: l))
      with (y ++ "" ++ String.concat "" (z :: l))%string.
    rewrite !string_length_app, IH.
    change (String.length "") with 0%nat.
    change (list_sum (map String.length (y :: z :: l)))
      with (String.length y + list_sum (map String.length (z :: l)))%nat.
    lia.
Qed.

Lemma length_lines (l : list string) :
  list_sum (map String.length (map (fun s => (s ++ newline)%string) l))
  = (list_sum (map String.length l) + length l)%nat.
Proof.
  induction l as [|y l IH]; [reflexivity|].
  change (String.length (y ++ newline)
          + list_sum (map String.length
                          (map (fun s => (s ++ newline)%string) l))
          = String.length y + list_sum (map String.length l)
            + S (length l))%nat.
  rewrite IH, string_length_app.
  change (String.length newline) with 1%nat. lia.
Qed.

Lemma fold_append (A : Type) (f : A -> string) (l : list A)
      (ret : list string) :
  fold_left (fun ret x => ret ++ [f x]) l ret = ret ++ map f l.
Proof.
  revert ret. induction l as [|x l IH]; intros ret; cbn.
  - now rewrite app_nil_r.
  - now rewrite IH, <- app_assoc.
Qed.

Section PlainItems.

Variable PairT : Type.
Variable PairString : PairT -> string.
Variable PriceT : Type.
Variable Sprintf_f : PriceT -> string.

(** A slice of marshalled items becomes one item: every input item
    followed by a newline, in order; for an empty slice the result is a
    single newline. The error passed along with the item is not looked
    at. *)
Theorem plain_joins_lines (i : list string) (ierr : option error) :
  exists out : string,
    plainItem PairString Sprintf_f (ItemMarshalled i) ierr
    = Ok ([out], None)
    /\ (i = [] -> out = newline)
    /\ (i <> [] ->
        out = String.concat "" (map (fun s => (s ++ newline)%string) i))
    /\ String.length out
       = (list_sum (map String.length i) + Nat.max 1 (length i))%nat.
Proof.
  eexists. split; [reflexivity|]. split; [now intros ->|]. split.
  - destruct i as [|x i]; [easy|]. intros _. apply concat_lines.
  - destruct i as [|x i]; [reflexivity|].
    rewrite concat_lines, length_concat_empty, length_lines.
    cbn [length]. lia.
Qed.

(** The plain format never passes on the error that comes with an item:
    the result does not depend on it, and the only error returned is the
    one for an unsupported type, with no output. A price model map gives
    one line per key, its string form, in the order of the range. *)
Theorem plain_ignores_item_error (it : item PairT PriceT)
        (ierr : option error) :
  plainItem PairString Sprintf_f it ierr
  = plainItem PairString Sprintf_f it None
  /\ (forall out err,
        plainItem PairString Sprintf_f it ierr = Ok (out, Some err) <->
        it = ItemOther
        /\ out = [] /\ err = New "unsupported data type")
  /\ (forall keys,
        it = ItemPriceModelMap keys ->
        plainItem PairString Sprintf_f it ierr
        = Ok (map PairString keys, None)).
Proof.
  split; [now destruct it|]. split.
  - intros out err. destruct it as [i|[a|]|[e|]|keys|]; cbn;
      split; try (intros [H _]; discriminate H); try (intros H; discriminate H).
    + intros [= <- <-]. now repeat split.
    + now intros (_ & -> & ->).
  - intros keys ->. cbn. unfold plainHandlePriceModelMap.
    now rewrite fold_append.
Qed.

End PlainItems.

End PlainFacts.

(** * Properties of the relayer configuration *)

Module SpectreFacts.

Import spectre.

Lemma wrap64_small (z : Z) :
  - 2 ^ 63 <= z < 2 ^ 63 -> wrap64 z = z.
Proof. intros H. unfold wrap64. rewrite Z.mod_small; lia. Qed.

Section ConfigureFacts.

Variable Signer PriceStore Client Logger Address : Type.
Variable HexToAddress : string -> Address.

(** The relayer is configured with one pair per medianizer, under the
    medianizer's name and without duplicates: the asset pairs are the keys
    of the medianizer map, the same set the price store is configured
    with. *)
Theorem ConfigureRelayer_pairs_are_the_medianizers
        (c : Spectre) (d : Dependencies Signer PriceStore Client Logger) :
  NoDup (map AssetPair
             (Pairs (ConfigureRelayer HexToAddress c d)))
  /\ Permutation (map AssetPair
                      (Pairs (ConfigureRelayer HexToAddress c d)))
                 (ConfigurePriceStore_Pairs c)
  /\ (forall name : string,
        In name (map AssetPair
                     (Pairs (ConfigureRelayer HexToAddress c d)))
        <-> is_Some (Medianizers c !! name))
  /\ length (Pairs (ConfigureRelayer HexToAddress c d))
     = size (Medianizers c).
Proof.
  unfold ConfigureRelayer, ConfigurePriceStore_Pairs. cbn [Pairs].
  rewrite map_map. cbn [AssetPair].
  split; [apply NoDup_fst_map_to_list|]. split; [reflexivity|]. split.
  - intros name. rewrite in_map_iff. split.
    + intros ([n m] & <- & Hin).
      apply list_elem_of_In, elem_of_map_to_list in Hin. now exists m.
    + intros [m Hm]. exists (name, m). split; [reflexivity|].
      now apply list_elem_of_In, elem_of_map_to_list.
  - rewrite length_map. apply length_map_to_list.
Qed.

(** Every configured pair carries the settings of the medianizer of its
    name: the spread as it is, the contract at the medianizer's address,
    and the expiration turned from seconds into a duration, exactly so as
    long as the number of seconds is within 9223372036 of zero (beyond, the
    [int64] product wraps). *)
Theorem ConfigureRelayer_pair_settings
        (c : Spectre) (d : Dependencies Signer PriceStore Client Logger)
        (p : Pair Client Address) :
  In p (Pairs (ConfigureRelayer HexToAddress c d)) ->
  exists m : Medianizer,
    Medianizers c !! AssetPair p = Some m
    /\ POracleSpread p = OracleSpread m
    /\ Median p = (EthereumClient d, HexToAddress (Contract m))
    /\ POracleExpiration p = wrap64 (Second * OracleExpiration m)
    /\ (- 9223372036 <= OracleExpiration m <= 9223372036 ->
        POracleExpiration p = 1000000000 * OracleExpiration m)
    /\ FeederAddressesUpdateTicker p = 3600000000000.
Proof.
  unfold ConfigureRelayer. cbn [Pairs]. rewrite in_map_iff.
  intros ([n m] & <- & Hin).
  apply list_elem_of_In, elem_of_map_to_list in Hin. cbn.
  exists m. repeat split; try assumption.
  intros Hrange. apply wrap64_small. unfold Second. lia.
Qed.

End ConfigureFacts.

(** One medianizer, BTCUSD, with an expiration of 3600 s. *)
Lemma ConfigureRelayer_pair_settings_witness :
  exists m : Medianizer,
    ({[ "BTCUSD" := mkMedianizer "0xabc" 1 3600 ]} : gmap string Medianizer)
      !! "BTCUSD" = Some m
    /\ 3600000000000 = 1000000000 * OracleExpiration m.
Proof.
  destruct (ConfigureRelayer_pair_settings unit unit unit unit string id
              (mkSpectre 5 {[ "BTCUSD" := mkMedianizer "0xabc" 1 3600 ]})
              (mkDependencies unit unit unit unit tt tt tt tt)
              (mkPair unit string "BTCUSD" 1 3600000000000 (tt, "0xabc")
                      3600000000000))
    as (m & Hm & _ & _ & _ & Hexact & _).
  - vm_compute. left. reflexivity.
  - exists m. split; [exact Hm|]. apply Hexact.
    vm_compute in Hm. injection Hm as <-. cbn. lia.
Defined.

End SpectreFacts.
